(** * Optimum: iterative closest point registration (src/icp.h)

    A shallow embedding of the three classes of [namespace Optimum]
    ([Point], [OptimalPointMatcher], [ICP]) and the properties the
    specification states about them.

    Conventions of the embedding.
    - [double] is idealised as a real closed field [R]: [+], [-], [*], [/]
      and [<] are the field operations and [sqrt] is [Num.sqrt].  Rounding,
      infinities and NaN are outside the model.
    - [asin], [sin] and [cos] of <math.h> and Eigen's [JacobiSVD] are
      collaborators of the program, not part of it: they are taken as
      parameters ([MathLib], [EigenSVD]).
    - [Eigen::MatrixXd] has its shape at run time: [MatrixXd] packs the two
      dimensions with the coefficients.  An Eigen operation whose operands
      have the wrong shape, and an unchecked access out of range, have no
      defined result: they are [Fault Undefined].  [std::vector::at] out of
      range throws: [Fault OutOfRange].
    - [MatrixXd m(r, c)] leaves its coefficients unset.  The embedding takes
      the content of that storage as an argument ([junk]), so that a result
      that reads it before writing it depends on [junk] visibly.
    - console output is a list of [message]s. *)

From HB Require Import structures.
From mathcomp Require Import boot order algebra.
From mathcomp Require Import algC.

Set Implicit Arguments.
Unset Strict Implicit.
Unset Printing Implicit Defensive.

Import Order.TTheory GRing.Theory Num.Theory.
Local Open Scope ring_scope.

(** ** Outcomes of a computation *)

Inductive fault : Type :=
  | OutOfRange   (* std::out_of_range thrown by std::vector::at *)
  | Undefined.   (* unchecked access out of range, Eigen shape violation *)

Inductive outcome (A : Type) : Type :=
  | Done (a : A)
  | Fault (e : fault)
  | OutOfFuel.

Arguments Done {A} a.
Arguments Fault {A} e.
Arguments OutOfFuel {A}.

Definition bind {A B : Type} (x : outcome A) (k : A -> outcome B) : outcome B :=
  match x with
  | Done a => k a
  | Fault e => Fault e
  | OutOfFuel => OutOfFuel
  end.

Notation "x <- e ;; k" := (bind e (fun x => k))
  (at level 100, e at next level, right associativity, only parsing).

Notation "' p <- e ;; k" := (bind e (fun x => let p := x in k))
  (at level 100, p pattern, e at next level, right associativity,
   only parsing).

(** [for (int i = 0; i < n; i++) body] is [forM (iota 0 n) body]. *)
Fixpoint forM {I S : Type} (s : seq I) (body : I -> S -> outcome S) (st : S)
  : outcome S :=
  match s with
  | [::] => Done st
  | i :: s' => st' <- body i st ;; forM s' body st'
  end.

(** [while (cond) body], with the number of rounds already run handed to
    the body and returned at the end; [OutOfFuel] when the fuel runs out. *)
Fixpoint while_ {S : Type} (fuel : nat) (cond : S -> bool)
    (body : nat -> S -> outcome S) (k : nat) (st : S) : outcome (nat * S) :=
  match fuel with
  | 0%N => OutOfFuel
  | fuel'.+1 =>
      if cond st then st' <- body k st ;; while_ fuel' cond body k.+1 st'
      else Done (k, st)
  end.

(** [v[i]] ([e = Undefined]) and [v.at(i)] ([e = OutOfRange]) on a vector. *)
Definition fetch {T : Type} (e : fault) (v : seq T) (i : nat) : outcome T :=
  if drop i v is x :: _ then Done x else Fault e.

(** [v[i] = x] on a vector. *)
Definition store {T : Type} (v : seq T) (i : nat) (x : T) : outcome (seq T) :=
  if drop i v is _ :: v' then Done (take i v ++ x :: v') else Fault Undefined.

(** ** The collaborators *)

Class MathLib (R : Type) : Type := {
  asin : R -> R;
  sin : R -> R;
  cos : R -> R
}.

(** [JacobiSVD<MatrixXd> svd(A, ComputeFullU | ComputeFullV)]: the pair
    [(svd.matrixU(), svd.matrixV())]. *)
Class EigenSVD (R : nzRingType) : Type := {
  JacobiSVD : forall m n : nat, 'M[R]_(m, n) -> 'M[R]_m * 'M[R]_n
}.

Section Model.

Context {R : rcfType} {libm : MathLib R} {eigen : EigenSVD R}.

(** A decimal constant of the source, from its digits: [1000000.0] is
    [decimal [:: 1; 0; 0; 0; 0; 0; 0]]. *)
Definition decimal (digits : seq nat) : R :=
  foldl (fun acc d => acc * 10%:R + d%:R) 0 digits.

(** ** class Point *)

(* std::vector<double> coords *)
Definition Point : Type := seq R.

(* Point(), Point(double x, double y), Point(double x, double y, double z) *)
Definition Point0 : Point := [::].
Definition Point2 (x y : R) : Point := [:: x; y].
Definition Point3 (x y z : R) : Point := [:: x; y; z].

(* void prepare(int size) *)
Definition prepare (size : nat) (coords : Point) : Point :=
  foldl (fun coords _ => rcons coords 0) coords (iota 0 size).

(* void setValue(double value, int pos) *)
Definition setValue (value : R) (pos : nat) (coords : Point) : outcome Point :=
  store coords pos value.

(* void setPoints(double * points, int size): appends the first size
   entries of the array *)
Definition setPoints (points : seq R) (size : nat) (coords : Point)
  : outcome Point :=
  forM (iota 0 size)
    (fun i coords => x <- fetch Undefined points i ;; Done (rcons coords x))
    coords.

(* int size() *)
Definition Point_size (coords : Point) : nat := size coords.

(* double& operator[] (const int &i), read *)
Definition Point_at (coords : Point) (i : nat) : outcome R :=
  fetch Undefined coords i.

(* Point operator-(Point other) *)
Definition Point_sub (this other : Point) : outcome Point :=
  let p := prepare (size other) [::] in
  forM (iota 0 (size other))
    (fun i p =>
       a <- fetch Undefined this i ;;
       b <- fetch Undefined other i ;;
       store p i (a - b))
    p.

(* double distanceTo(Point &other) *)
Definition distanceTo (this other : Point) : outcome R :=
  diff <- Point_sub this other ;;
  sqs <- forM (iota 0 (size other))
           (fun i sqs =>
              d <- fetch Undefined diff i ;;
              let sq := d * d in
              Done (rcons sqs sq))
           [::] ;;
  sum <- forM (iota 0 (size sqs))
           (fun j sum => sq <- fetch Undefined sqs j ;; Done (sum + sq))
           0 ;;
  Done (Num.sqrt sum).

(** ** Eigen::MatrixXd *)

Record MatrixXd : Type := Mx {
  rows : nat;
  cols : nat;
  coefs : 'M[R]_(rows, cols)
}.

(** The coefficient at [(i, j)], [0] outside the matrix; the operations
    below guard every use. *)
Definition peek (M : MatrixXd) (i j : nat) : R :=
  match insub i, insub j with
  | Some i', Some j' => coefs M i' j'
  | _, _ => 0
  end.

Definition mk (r c : nat) (f : nat -> nat -> R) : MatrixXd :=
  Mx (\matrix_(i < r, j < c) f i j).

(* M.size() *)
Definition msize (M : MatrixXd) : nat := (rows M * cols M)%N.

Definition same_shape (A B : MatrixXd) : bool :=
  (rows A == rows B) && (cols A == cols B).

(* reading M(i, j) *)
Definition coeff (M : MatrixXd) (i j : nat) : outcome R :=
  if (i < rows M)%N && (j < cols M)%N then Done (peek M i j)
  else Fault Undefined.

(* M(i, j) = v *)
Definition poke (M : MatrixXd) (i j : nat) (v : R) : outcome MatrixXd :=
  if (i < rows M)%N && (j < cols M)%N then
    Done (mk (rows M) (cols M)
            (fun i' j' => if (i' == i) && (j' == j) then v else peek M i' j'))
  else Fault Undefined.

(* MatrixXd M(r, c): the coefficients are whatever the storage holds *)
Definition unset (junk : nat -> nat -> R) (r c : nat) : MatrixXd := mk r c junk.

Definition Zero (r c : nat) : MatrixXd := mk r c (fun _ _ => 0).
Definition Ones (r c : nat) : MatrixXd := mk r c (fun _ _ => 1).
Definition Identity (r c : nat) : MatrixXd := mk r c (fun i j => (i == j)%:R).

Definition transpose (M : MatrixXd) : MatrixXd :=
  mk (cols M) (rows M) (fun i j => peek M j i).

(* A * c and c * A for a scalar c *)
Definition scale (c : R) (M : MatrixXd) : MatrixXd :=
  mk (rows M) (cols M) (fun i j => c * peek M i j).

Definition add (A B : MatrixXd) : outcome MatrixXd :=
  if same_shape A B then
    Done (mk (rows A) (cols A) (fun i j => peek A i j + peek B i j))
  else Fault Undefined.

Definition sub (A B : MatrixXd) : outcome MatrixXd :=
  if same_shape A B then
    Done (mk (rows A) (cols A) (fun i j => peek A i j - peek B i j))
  else Fault Undefined.

Definition mul (A B : MatrixXd) : outcome MatrixXd :=
  if cols A == rows B then
    Done (mk (rows A) (cols B)
            (fun i j => \sum_(k < cols A) peek A i k * peek B k j))
  else Fault Undefined.

(* M.row(r).sum() *)
Definition rowsum (M : MatrixXd) (r : nat) : outcome R :=
  if (r < rows M)%N then Done (\sum_(c < cols M) peek M r c)
  else Fault Undefined.

(* M.row(r) = M.row(r) - v, for a row vector v *)
Definition row_sub (M : MatrixXd) (r : nat) (v : MatrixXd) : outcome MatrixXd :=
  if [&& (r < rows M)%N, rows v == 1%N & cols v == cols M] then
    Done (mk (rows M) (cols M)
            (fun i j => if i == r then peek M i j - peek v 0 j else peek M i j))
  else Fault Undefined.

(* M.row(r) *= c *)
Definition row_scale (M : MatrixXd) (r : nat) (c : R) : outcome MatrixXd :=
  if (r < rows M)%N then
    Done (mk (rows M) (cols M)
            (fun i j => if i == r then peek M i j * c else peek M i j))
  else Fault Undefined.

(* M.col(i) = v, for a column vector v *)
Definition set_col (M : MatrixXd) (i : nat) (v : MatrixXd) : outcome MatrixXd :=
  if [&& (i < cols M)%N, rows v == rows M & cols v == 1%N] then
    Done (mk (rows M) (cols M)
            (fun i' j' => if j' == i then peek v i' 0 else peek M i' j'))
  else Fault Undefined.

(* M.determinant(); Eigen gives 1 for the empty matrix, as \det does *)
Definition determinant (M : MatrixXd) : outcome R :=
  if rows M == cols M then
    Done (\det (\matrix_(i < rows M, j < rows M) peek M i j))
  else Fault Undefined.

(** ** class OptimalPointMatcher *)

(* static MatrixXd getCentroid(MatrixXd points): entry (i, 0) is
   points.col(i).sum() / rows; the loop writes every entry of the fresh
   column vector, so nothing of its storage remains *)
Definition getCentroid (points : MatrixXd) : MatrixXd :=
  mk (cols points) 1
    (fun i _ => (\sum_(r < rows points) peek points r i) / (rows points)%:R).

(* static MatrixXd solveForOptimalTranslation(ref, target, optimalRotation) *)
Definition solveForOptimalTranslation (ref target optimalRotation : MatrixXd)
  : outcome MatrixXd :=
  let centroidOne := getCentroid target in
  let centroidTwo := getCentroid ref in
  p <- mul (scale (-1) optimalRotation) centroidOne ;;
  add p centroidTwo.

(* static MatrixXd solveForOptimalRotation(ref, target) *)
Definition solveForOptimalRotation (ref target : MatrixXd) : outcome MatrixXd :=
  let centroidOne := getCentroid target in
  let centroidTwo := getCentroid ref in
  (* center points at centroid *)
  ' (ref, target) <-
    forM (iota 0 (rows ref))
      (fun r '(ref, target) =>
         ref' <- row_sub ref r (transpose centroidTwo) ;;
         target' <- row_sub target r (transpose centroidOne) ;;
         Done (ref', target'))
      (ref, target) ;;
  (* calculate covariance matrix *)
  cov <- mul (transpose target) ref ;;
  (* calculate svd *)
  let svd := JacobiSVD (coefs cov) in
  (* rotation R = V * U(transpose) *)
  rotation <- mul (Mx svd.2) (transpose (Mx svd.1)) ;;
  (* check for correction *)
  det <- determinant rotation ;;
  if det < 0 then
    (* rotation.row(rotation.rows() - 1) *= -1 *)
    if rows rotation is last.+1 then row_scale rotation last (-1)
    else Fault Undefined
  else Done rotation.

Inductive message : Type :=
  | SizeMismatch           (* "Error, matrix size mismatch." *)
  | ErrorReport (e : R).   (* "Error: " << error *)

(* static double RMSE(MatrixXd dataOne, MatrixXd dataTwo); the value
   returned and the lines printed *)
Definition RMSE (dataOne dataTwo : MatrixXd) : outcome (R * seq message) :=
  if msize dataOne != msize dataTwo then Done (0, [:: SizeMismatch])
  else
    (* first take difference of the two arrays *)
    result <- sub dataOne dataTwo ;;
    (* create a container for the squares *)
    let squares := Zero (rows result) (cols result) in
    squares <-
      forM (iota 0 (rows result))
        (fun i squares =>
           forM (iota 0 (cols result))
             (fun j squares =>
                val <- coeff result i j ;;
                let newVal := val * val in
                poke squares i j newVal)
             squares)
        squares ;;
    (* vector for the sum of the rows *)
    sumSqrs <-
      forM (iota 0 (rows squares))
        (fun r sumSqrs => sum <- rowsum squares r ;; Done (rcons sumSqrs sum))
        [::] ;;
    (* get the square roots *)
    sqrts <-
      forM (iota 0 (size sumSqrs))
        (fun q sqrts =>
           s <- fetch OutOfRange sumSqrs q ;; Done (rcons sqrts (Num.sqrt s)))
        [::] ;;
    (* calculate rmse as the sum of square roots *)
    rmse <-
      forM (iota 0 (size sqrts))
        (fun x rmse => s <- fetch OutOfRange sqrts x ;; Done (rmse + s))
        0 ;;
    Done (rmse, [::]).

(* static MatrixXd applyTransformation(data, translation, rotation) *)
Definition applyTransformation (junk : nat -> nat -> R)
    (data translation rotation : MatrixXd) : outcome MatrixXd :=
  let trans := unset junk (rows data) (cols data) in
  let ones := Ones (rows data) 1 in
  trans <-
    (if (rows translation != rows data) || (cols translation != cols data) then
       if cols translation == 1%N then
         (* column vector *)
         forM (iota 0 (cols data))
           (fun i trans =>
              t <- coeff translation i 0 ;; set_col trans i (scale t ones))
           trans
       else if rows translation == 1%N then
         (* row vector *)
         forM (iota 0 (cols data))
           (fun i trans =>
              t <- coeff translation 0 i ;; set_col trans i (scale t ones))
           trans
       else Done trans
     else Done trans) ;;
  s <- add data trans ;;
  mul s rotation.

(** ** class ICP *)

Inductive PointType : Type := TWO_D | THREE_D.

Record ICPSettings : Type := {
  pointType : PointType;
  maxIterations : int
}.

(* the fields of the class; [iterations] is an int, and is lowered only
   while it is positive, so its 32-bit wrap-around never applies *)
Record ICP : Type := MkICP {
  mRef : MatrixXd;
  mTarget : MatrixXd;
  curRef : MatrixXd;
  solvedTransform : MatrixXd;
  solvedRotation : MatrixXd;
  transform : MatrixXd;
  lastTransform : MatrixXd;
  rotation : MatrixXd;
  lastRotation : MatrixXd;
  refPoints : seq Point;
  tarPoints : seq Point;
  closestPoints : seq Point;
  iterations : int
}.

Definition set_curRef (v : MatrixXd) (s : ICP) : ICP :=
  MkICP (mRef s) (mTarget s) v (solvedTransform s) (solvedRotation s)
    (transform s) (lastTransform s) (rotation s) (lastRotation s)
    (refPoints s) (tarPoints s) (closestPoints s) (iterations s).

Definition set_transform (v : MatrixXd) (s : ICP) : ICP :=
  MkICP (mRef s) (mTarget s) (curRef s) (solvedTransform s) (solvedRotation s)
    v (lastTransform s) (rotation s) (lastRotation s)
    (refPoints s) (tarPoints s) (closestPoints s) (iterations s).

Definition set_lastTransform (v : MatrixXd) (s : ICP) : ICP :=
  MkICP (mRef s) (mTarget s) (curRef s) (solvedTransform s) (solvedRotation s)
    (transform s) v (rotation s) (lastRotation s)
    (refPoints s) (tarPoints s) (closestPoints s) (iterations s).

Definition set_rotation (v : MatrixXd) (s : ICP) : ICP :=
  MkICP (mRef s) (mTarget s) (curRef s) (solvedTransform s) (solvedRotation s)
    (transform s) (lastTransform s) v (lastRotation s)
    (refPoints s) (tarPoints s) (closestPoints s) (iterations s).

Definition set_lastRotation (v : MatrixXd) (s : ICP) : ICP :=
  MkICP (mRef s) (mTarget s) (curRef s) (solvedTransform s) (solvedRotation s)
    (transform s) (lastTransform s) (rotation s) v
    (refPoints s) (tarPoints s) (closestPoints s) (iterations s).

Definition set_refPoints (v : seq Point) (s : ICP) : ICP :=
  MkICP (mRef s) (mTarget s) (curRef s) (solvedTransform s) (solvedRotation s)
    (transform s) (lastTransform s) (rotation s) (lastRotation s)
    v (tarPoints s) (closestPoints s) (iterations s).

Definition set_tarPoints (v : seq Point) (s : ICP) : ICP :=
  MkICP (mRef s) (mTarget s) (curRef s) (solvedTransform s) (solvedRotation s)
    (transform s) (lastTransform s) (rotation s) (lastRotation s)
    (refPoints s) v (closestPoints s) (iterations s).

Definition set_closestPoints (v : seq Point) (s : ICP) : ICP :=
  MkICP (mRef s) (mTarget s) (curRef s) (solvedTransform s) (solvedRotation s)
    (transform s) (lastTransform s) (rotation s) (lastRotation s)
    (refPoints s) (tarPoints s) v (iterations s).

Definition set_iterations (v : int) (s : ICP) : ICP :=
  MkICP (mRef s) (mTarget s) (curRef s) (solvedTransform s) (solvedRotation s)
    (transform s) (lastTransform s) (rotation s) (lastRotation s)
    (refPoints s) (tarPoints s) (closestPoints s) v.

(* a default-constructed MatrixXd is 0 x 0 *)
Definition empty_matrix : MatrixXd := Zero 0 0.

(* ICP(MatrixXd reference, MatrixXd target, ICPSettings set) *)
Definition ICP_new (reference target : MatrixXd) (set : ICPSettings) : ICP :=
  MkICP reference target reference empty_matrix empty_matrix
    empty_matrix empty_matrix empty_matrix empty_matrix
    [::] [::] [::] (maxIterations set).

(* #define PI 3.14159265 *)
Definition PI : R := decimal [:: 3; 1; 4; 1; 5; 9; 2; 6; 5] / 10%:R ^+ 8.

(* double rotMatrixToDegrees(MatrixXd rot) *)
Definition rotMatrixToDegrees (rot : MatrixXd) : outcome R :=
  r10 <- coeff rot 1 0 ;;
  Done (asin r10 * 180%:R / PI).

(* MatrixXd angleToRotMatrix(double angle, int size) *)
Definition angleToRotMatrix (junk : nat -> nat -> R) (angle : R) (size : nat)
  : outcome MatrixXd :=
  let rot := unset junk size size in
  rot <- poke rot 0 0 (cos (angle * PI / 180%:R)) ;;
  rot <- poke rot 0 1 (- sin (angle * PI / 180%:R)) ;;
  rot <- poke rot 1 0 (sin (angle * PI / 180%:R)) ;;
  rot <- poke rot 1 1 (cos (angle * PI / 180%:R)) ;;
  Done rot.

(* the linear search of match() for one target point: the state of the
   loop is (bestDistance, best) *)
Definition linear_search (refPoints tarPoints : seq Point) (tar : Point)
    (init : R * Point) : outcome (R * Point) :=
  forM (iota 0 (size tarPoints))
    (fun j '(bestDistance, best) =>
       ref <- fetch OutOfRange refPoints j ;;
       dist <- distanceTo tar ref ;;
       if dist < bestDistance then Done (dist, ref)
       else Done (bestDistance, best))
    init.

(* MatrixXd match() *)
Definition match_ (junk : nat -> nat -> R) (this : ICP) : outcome (ICP * MatrixXd) :=
  (* set the points *)
  let rows := rows (mRef this) in
  let cols := cols (mRef this) in
  this <-
    forM (iota 0 rows)
      (fun r this =>
         let ref := prepare cols [::] in
         let tar := prepare cols [::] in
         ' (ref, tar) <-
           forM (iota 0 cols)
             (fun c '(ref, tar) =>
                x <- coeff (curRef this) r c ;;
                ref <- setValue x c ref ;;
                y <- coeff (mTarget this) r c ;;
                tar <- setValue y c tar ;;
                Done (ref, tar))
             (ref, tar) ;;
         let this := set_tarPoints (rcons (tarPoints this) tar) this in
         Done (set_refPoints (rcons (refPoints this) ref) this))
      this ;;
  (* get the closest points between target and reference *)
  this <-
    forM (iota 0 (size (refPoints this)))
      (fun i this =>
         let bestDistance := decimal [:: 1; 0; 0; 0; 0; 0; 0] in
         tar <- fetch OutOfRange (tarPoints this) i ;;
         ref0 <- fetch OutOfRange (refPoints this) 0 ;;
         let best := prepare (size ref0) [::] in
         (* linear search *)
         ' (_, best) <-
           linear_search (refPoints this) (tarPoints this) tar
             (bestDistance, best) ;;
         Done (set_closestPoints (rcons (closestPoints this) best) this))
      this ;;
  (* create matrix of closest points *)
  p0 <- fetch OutOfRange (closestPoints this) 0 ;;
  let closest := unset junk (size (closestPoints this)) (size p0) in
  closest <-
    forM (iota 0 (size (closestPoints this)))
      (fun x closest =>
         p <- fetch OutOfRange (closestPoints this) x ;;
         forM (iota 0 (size p))
           (fun y closest => v <- fetch Undefined p y ;; poke closest x y v)
           closest)
      closest ;;
  Done (this, closest).

(** The storage found by the [k]-th [MatrixXd m(r, c)] of a run. *)
Definition storage : Type := nat -> nat -> nat -> R.

(* the body of the loop of solve(), in round k; the console is threaded
   with the object *)
Definition solve_round (junk : storage) (k : nat) (st : ICP * seq message)
  : outcome (ICP * seq message) :=
  let: (this, cout) := st in
  let this := set_closestPoints [::] this in
  let this := set_tarPoints [::] this in
  let this := set_refPoints [::] this in
  let this := set_lastTransform (transform this) this in
  let this := set_lastRotation (rotation this) this in
  ' (this, closest) <- match_ (junk (3 * k)%N) this ;;
  (* get rotation and translation *)
  newRot <- solveForOptimalRotation closest (mTarget this) ;;
  newTrans <- solveForOptimalTranslation closest (mTarget this) newRot ;;
  lastAngle <- rotMatrixToDegrees (lastRotation this) ;;
  angle <- rotMatrixToDegrees newRot ;;
  let newAngle := lastAngle + angle in
  rot <- angleToRotMatrix (junk (3 * k + 1)%N) newAngle
           (rows (lastRotation this)) ;;
  let this := set_rotation rot this in
  let this := set_transform newTrans this in
  (* update the target *)
  newRef <- applyTransformation (junk (3 * k + 2)%N)
              (curRef this) (transform this) (rotation this) ;;
  ' (error, printed) <- RMSE (mTarget this) newRef ;;
  let cout := cout ++ printed ++ [:: ErrorReport error] in
  let this := set_curRef newRef this in
  (* work towards ending of loop *)
  let this := set_iterations (iterations this - 1) this in
  Done (this, cout).

(* void solve(): the number of rounds run, the object and the console *)
Definition solve (fuel : nat) (junk : storage) (this : ICP)
  : outcome (nat * (ICP * seq message)) :=
  let this :=
    set_rotation (Identity (cols (mRef this)) (cols (mRef this))) this in
  let this := set_transform (Zero (cols (mRef this)) 1) this in
  while_ fuel (fun st => 0 < iterations st.1) (solve_round junk) 0 (this, [::]).

(* MatrixXd getBestTranslation() *)
Definition getBestTranslation (this : ICP) : MatrixXd := transform this.

(* MatrixXd getBestRotation() *)
Definition getBestRotation (this : ICP) : MatrixXd := rotation this.

End Model.

(** * Notions used by the statements

    Closed forms of what the loops compute, and the predicates the lemmas
    and theorems are stated with. *)

Section Notions.

Context {R : rcfType} {libm : MathLib R} {eigen : EigenSVD R}.

(** The Euclidean distance of two points, over the coordinates of the
    second. *)
Definition dist (p q : seq R) : R :=
  Num.sqrt (\sum_(0 <= i < size q) (nth 0 p i - nth 0 q i) ^+ 2).

(** Row [i] of a matrix as a point. *)
Definition row_point (M : @MatrixXd R) (i : nat) : seq R :=
  mkseq (fun j => peek M i j) (cols M).

(** The all-zeros point of a given size. *)
Definition zero_point (n : nat) : seq R := nseq n 0.

(** A matrix with the centroid of its rows subtracted from every row. *)
Definition centered r c (A : 'M[R]_(r, c)) : 'M[R]_(r, c) :=
  \matrix_(i, j) (A i j - (\sum_k A k j) / r%:R).

(** The covariance matrix handed to the decomposition. *)
Definition kabsch_cov r c (ref target : 'M[R]_(r, c)) : 'M[R]_c :=
  (centered target)^T *m centered ref.

(** [M] with its last row negated. *)
Definition negate_last_row n (M : 'M[R]_n) : 'M[R]_n :=
  \matrix_(i, j) if i.+1 == n then - M i j else M i j.

(** The reflection correction of solveForOptimalRotation. *)
Definition proper_rotation n (M : 'M[R]_n) : 'M[R]_n :=
  if \det M < 0 then negate_last_row M else M.

(** The diagonal of the matrix that negates the last row. *)
Definition last_sign n : 'rV[R]_n := \row_i if i.+1 == n then -1 else 1.

(** The centroid of the rows of a matrix, as a column vector. *)
Definition centroid r c (A : 'M[R]_(r, c)) : 'cV[R]_c :=
  \col_i ((\sum_k A k i) / r%:R).

(** The matrix added to [data] when the translation is broadcast: column
    [j] is constantly [t j]. *)
Definition broadcast (r c : nat) (t : nat -> R) : @MatrixXd R :=
  mk r c (fun _ j => t j).

(** The sum over the rows of the Euclidean norm of the row. *)
Definition sum_row_norms r c (D : 'M[R]_(r, c)) : R :=
  \sum_(i < r) Num.sqrt (\sum_(j < c) D i j ^+ 2).

(** The initial value of [bestDistance] in match(). *)
Definition million : R := decimal [:: 1; 0; 0; 0; 0; 0; 0].

(** One step of the linear search: keep the candidate unless the new
    reference point is strictly closer. *)
Definition search_step (tar : seq R) (acc : R * seq R) (ref : seq R)
  : R * seq R :=
  if dist tar ref < acc.1 then (dist tar ref, ref) else acc.

(** The search over all reference points, from the initial candidate. *)
Definition nearest (refs : seq (seq R)) (tar : seq R) (best0 : seq R)
  : R * seq R :=
  foldl (search_step tar) (million, best0) refs.

(** Row [i] of a matrix, cut to [c] coordinates. *)
Definition row_prefix (M : @MatrixXd R) (c i : nat) : seq R :=
  mkseq (peek M i) c.

(** The rows of a matrix as points. *)
Definition points r c (A : 'M[R]_(r, c)) : seq (seq R) :=
  mkseq (row_point (Mx A)) r.

(** For every target point, the point the search of match() ends with. *)
Definition best_matches r c (cur tgt : 'M[R]_(r, c)) : seq (seq R) :=
  mkseq (fun i => (nearest (points cur) (nth [::] (points tgt) i)
                     (zero_point c)).2) r.

(** [asin(x) * 180.0 / PI] *)
Definition degrees (x : R) : R := asin x * 180%:R / PI.

(** [angle * PI / 180.0] *)
Definition radians (angle : R) : R := angle * PI / 180%:R.

(** What angleToRotMatrix leaves in a [size x size] matrix: the four
    entries it writes, and the storage elsewhere. *)
Definition rot_entries (junk : nat -> nat -> R) (angle : R) (i j : nat) : R :=
  if (i == 1%N) && (j == 1%N) then cos (radians angle)
  else if (i == 1%N) && (j == 0%N) then sin (radians angle)
  else if (i == 0%N) && (j == 1%N) then - sin (radians angle)
  else if (i == 0%N) && (j == 0%N) then cos (radians angle)
  else junk i j.

(** The closed form of one round, for point sets [cur] (the working
    reference) and [tgt] of one shape and an accumulated rotation [rot]:
    the matrix match() returns, *)
Definition closest_mx r c (cur tgt : 'M[R]_(r, c)) : 'M[R]_(r, c) :=
  \matrix_(x, y) nth 0 (nth [::] (best_matches cur tgt) x) y.

(** the rotation and the translation solved for it, *)
Definition new_rotation r c (cur tgt : 'M[R]_(r, c)) : 'M[R]_c :=
  let svd := JacobiSVD (kabsch_cov (closest_mx cur tgt) tgt) in
  proper_rotation (svd.2 *m svd.1^T).

Definition new_translation r c (cur tgt : 'M[R]_(r, c)) : 'cV[R]_c :=
  (-1 *: new_rotation cur tgt) *m centroid tgt + centroid (closest_mx cur tgt).

(** the sum of the two angles, *)
Definition new_angle r c (rot : 'M[R]_c) (cur tgt : 'M[R]_(r, c)) : R :=
  degrees (peek (Mx rot) 1 0) + degrees (peek (Mx (new_rotation cur tgt)) 1 0).

(** the accumulated rotation rebuilt from it, *)
Definition next_rotation (junk : nat -> nat -> R) r c (rot : 'M[R]_c)
    (cur tgt : 'M[R]_(r, c)) : 'M[R]_c :=
  \matrix_(i, j) rot_entries junk (new_angle rot cur tgt) i j.

(** and the working reference after the round. *)
Definition next_ref (junk : nat -> nat -> R) r c (rot : 'M[R]_c)
    (cur tgt : 'M[R]_(r, c)) : 'M[R]_(r, c) :=
  (cur + \matrix_(i, j) new_translation cur tgt j 0)
  *m next_rotation junk rot cur tgt.

(** The fields no statement of solve() or match() assigns. *)
Definition same_inputs (a b : @ICP R) : Prop :=
  [/\ mRef b = mRef a, mTarget b = mTarget a,
      solvedTransform b = solvedTransform a
    & solvedRotation b = solvedRotation a].

(** The fields match() leaves as they are: all but the three point lists. *)
Definition same_matrices (a b : @ICP R) : Prop :=
  [/\ same_inputs a b, curRef b = curRef a,
      transform b = transform a /\ lastTransform b = lastTransform a,
      rotation b = rotation a /\ lastRotation b = lastRotation a
    & iterations b = iterations a].

(** The object on entry to a round over point sets of shape [r x c]. *)
Definition well_shaped (r c : nat) (this : @ICP R) : Prop :=
  [/\ rows (mRef this) = r, cols (mRef this) = c,
      exists cur : 'M[R]_(r, c), curRef this = Mx cur,
      exists tgt : 'M[R]_(r, c), mTarget this = Mx tgt
    & exists rot : 'M[R]_c, rotation this = Mx rot].

(** The line is an error report of a round. *)
Definition is_report (m : @message R) : bool :=
  if m is ErrorReport _ then true else false.

(** The object once a round has cleared the point lists and saved the
    accumulated transform. *)
Definition begin_round (this : @ICP R) : @ICP R :=
  let this := set_closestPoints [::] this in
  let this := set_tarPoints [::] this in
  let this := set_refPoints [::] this in
  let this := set_lastTransform (transform this) this in
  set_lastRotation (rotation this) this.

(** [rot] is a [size x size] matrix holding the rotation by [angle]
    degrees in its leading 2 x 2 block. *)
Definition rotation_by (rot : @MatrixXd R) (size : nat) (angle : R) : Prop :=
  [/\ rows rot = size /\ cols rot = size,
      coeff rot 0 0 = Done (cos (angle * PI / 180%:R)),
      coeff rot 0 1 = Done (- sin (angle * PI / 180%:R)),
      coeff rot 1 0 = Done (sin (angle * PI / 180%:R))
    & coeff rot 1 1 = Done (cos (angle * PI / 180%:R))].

(** The object on entry to match() in a round over the working reference
    [cur] and the target [tgt]: the shapes agree and the three point lists
    were cleared. *)
Definition match_entry r c (cur tgt : 'M[R]_(r, c)) (this : @ICP R) : Prop :=
  [/\ rows (mRef this) = r /\ cols (mRef this) = c,
      curRef this = Mx cur, mTarget this = Mx tgt
    & [/\ refPoints this = [::], tarPoints this = [::]
        & closestPoints this = [::]]].

(** [rot] is an [n x n] proper rotation: determinant 1, and the transpose
    is the inverse on both sides. *)
Definition is_proper_rotation (n : nat) (rot : @MatrixXd R) : Prop :=
  [/\ determinant rot = Done 1,
      mul (transpose rot) rot = Done (Identity n n)
    & mul rot (transpose rot) = Done (Identity n n)].

(** The shape of a matrix. *)
Definition shape_of (M : @MatrixXd R) : nat * nat := (rows M, cols M).

(** The object and the console after a round over point sets of shape
    [r x c]: the last line reports the error of the working reference. *)
Definition reported (r c : nat) (this : @ICP R) (cout : seq (@message R))
  : Prop :=
  exists (cur tgt : 'M[R]_(r, c)) (tr : 'cV[R]_c) (rot : 'M[R]_c),
    [/\ curRef this = Mx cur, mTarget this = Mx tgt,
        transform this = Mx tr, rotation this = Mx rot
      & exists cout0,
          cout = rcons cout0 (ErrorReport (sum_row_norms (tgt - cur)))].

(** The four fields that hold the transform and its copy of the previous
    round, set at once. *)
Definition with_transform (t l r lr : @MatrixXd R) (this : @ICP R) : @ICP R :=
  set_lastRotation lr
    (set_rotation r (set_lastTransform l (set_transform t this))).

End Notions.

(** * Concrete collaborators and inputs, over the real algebraic numbers *)

(** Values of the three functions at the origin, for runs on which no
    statement depends on them. *)
Definition origin_math : MathLib algR :=
  {| asin := fun _ => 0; sin := fun _ => 0; cos := fun _ => 1 |}.

(** A decomposition whose factors are identity matrices. *)
Definition identity_svd : EigenSVD algR :=
  {| JacobiSVD := fun m n _ => (1%:M, 1%:M) |}.

(** Two-dimensional points, one round. *)
Definition one_round : ICPSettings :=
  {| pointType := TWO_D; maxIterations := 1 |}.

(** Two-dimensional points, two rounds. *)
Definition two_rounds : ICPSettings :=
  {| pointType := TWO_D; maxIterations := 2 |}.

(** The object constructed for two empty sets of two-dimensional points. *)
Definition empty_sets (set : ICPSettings) : @ICP algR :=
  ICP_new (Zero 0 2) (Zero 0 2) set.

(** One point at the origin. *)
Definition origin_target : 'M[algR]_(1, 2) := 0.

(** One point at (1000000, 0). *)
Definition far_reference : 'M[algR]_(1, 2) :=
  \matrix_(i, j) if (j : nat) == 0%N then million else 0.

(** Storage that holds zeros, for one matrix and for a whole run. *)
Definition clean_storage : nat -> nat -> algR := fun _ _ => 0.

Definition clean_run : @storage algR := fun _ => clean_storage.

(** The object on entry to the first round of solve() on the two
    one-point sets above. *)
Definition first_round_entry : @ICP algR :=
  set_transform (Zero 2 1)
    (set_rotation (Identity 2 2)
       (ICP_new (Mx far_reference) (Mx origin_target) one_round)).

(** A translation by (1, 1), as a row vector and as a column vector. *)
Definition unit_shift : 'M[algR]_(1, 2) := const_mx 1.

Definition unit_shift_column : 'M[algR]_(2, 1) := const_mx 1.

(** The identity as rotation. *)
Definition no_rotation : 'M[algR]_2 := 1%:M.

(** Collaborators in which asin inverts sin everywhere. *)
Definition linear_math : MathLib algR :=
  {| asin := fun x => x; sin := fun x => x; cos := fun _ => 1 |}.

(** Two-dimensional points, no round. *)
Definition no_round : ICPSettings :=
  {| pointType := TWO_D; maxIterations := 0 |}.

(** Storage that holds ones. *)
Definition used_storage : nat -> nat -> algR := fun _ _ => 1.

(** * Facts *)

(** ** Loops, vectors *)

Section Loops.

Variables (S T : Type).

Lemma forM_iota_ind (P : nat -> S -> Prop) (body : nat -> S -> outcome S)
    (m n : nat) (st : S) :
  P m st ->
  (forall i s, (m <= i < m + n)%N -> P i s ->
     exists2 s', body i s = Done s' & P i.+1 s') ->
  exists2 st', forM (iota m n) body st = Done st' & P (m + n)%N st'.
Proof.
elim: n m st => [|n IH] m st Pm step /=; first by exists st; rewrite ?addn0.
have [|s' -> Ps'] /= := step m st _ Pm.
  by rewrite leqnn addnS ltnS leq_addr.
rewrite addnS -addSn; apply: IH => // i s /andP [Hmi Hin] Pi.
by apply: step => //; rewrite (ltnW Hmi) addnS -addSn.
Qed.

Lemma forM_inv (I : Type) (P : S -> Prop) (body : I -> S -> outcome S)
    (s : seq I) (st st' : S) :
  (forall i a b, body i a = Done b -> P a -> P b) ->
  forM s body st = Done st' -> P st -> P st'.
Proof.
move=> step; elim: s st => [|i s IH] st /=; first by case=> <-.
case E: (body i st) => [a|e|] //= Hf Pst.
exact: IH Hf (step _ _ _ E Pst).
Qed.

Lemma fetch_nth (x0 : T) (e : fault) (v : seq T) (i : nat) :
  (i < size v)%N -> fetch e v i = Done (nth x0 v i).
Proof. by move=> Hi; rewrite /fetch (drop_nth x0). Qed.

Lemma fetch_oob (e : fault) (v : seq T) (i : nat) :
  (size v <= i)%N -> fetch e v i = Fault e.
Proof. by move=> Hi; rewrite /fetch drop_oversize. Qed.

Lemma store_set_nth (x0 : T) (v : seq T) (i : nat) (x : T) :
  (i < size v)%N -> store v i x = Done (set_nth x0 v i x).
Proof.
move=> Hi; rewrite /store (drop_nth x0) //; congr Done.
by rewrite set_nthE Hi.
Qed.

End Loops.

(** ** class Point: closed forms *)

Section PointFacts.

Context {R : rcfType}.

Implicit Types (p q this other : seq R).

Lemma prepareE n p : prepare n p = p ++ nseq n 0.
Proof.
rewrite /prepare; move: 0%N; elim: n p => [|n IH] p m /=.
  by rewrite cats0.
by rewrite IH -cats1 -catA.
Qed.

Lemma prepare_nil n : prepare n [::] = zero_point n :> seq R.
Proof. by rewrite prepareE. Qed.

Lemma Point_subE this other :
  (size other <= size this)%N ->
  Point_sub this other
  = Done (mkseq (fun i => nth 0 this i - nth 0 other i) (size other)).
Proof.
move=> Hs; rewrite /Point_sub prepare_nil.
pose f i := nth 0 this i - nth 0 other i; set n := size other.
rewrite -/(mkseq f n); set loop := forM _ _ _.
pose P k (p : seq R) :=
  size p = n /\ forall i, nth 0 p i = if (i < k)%N then f i else 0.
have [p -> [Hn Hp]] : exists2 p, loop = Done p & P (0 + n)%N p.
  apply: forM_iota_ind.
    by split=> [|i]; rewrite ?size_nseq // nth_nseq if_same.
  move=> i s; rewrite add0n /= => Hi [Hsz Hnth].
  rewrite (fetch_nth 0) ?(leq_trans Hi) //= (fetch_nth 0) //=.
  rewrite (store_set_nth 0) ?Hsz //.
  exists (set_nth 0 s i (f i)) => //; split.
    by rewrite size_set_nth Hsz; apply/maxn_idPr.
  move=> j; rewrite nth_set_nth /= Hnth ltnS [(j <= i)%N]leq_eqVlt.
  by case: (j =P i) => [->|_] //=.
congr Done; apply: (@eq_from_nth _ 0); rewrite ?size_mkseq // Hn => i Hi.
by rewrite Hp add0n Hi nth_mkseq.
Qed.

Lemma distanceToE this other :
  (size other <= size this)%N -> distanceTo this other = Done (dist this other).
Proof.
move=> Hs; rewrite /distanceTo Point_subE //=.
set n := size other.
pose diff := mkseq (fun i => nth 0 this i - nth 0 other i) n.
rewrite -/diff.
pose g i := nth 0 diff i * nth 0 diff i.
set loop1 := forM _ _ _.
have [sqs -> ->] /= : exists2 s, loop1 = Done s & s = mkseq g (0 + n).
  apply: (@forM_iota_ind _ (fun k s => s = mkseq g k)) => //.
  move=> i s; rewrite add0n /= => Hi ->.
  rewrite (fetch_nth 0) ?size_mkseq //=.
  exists (rcons (mkseq g i) (g i)) => //.
  by rewrite /mkseq -addn1 iotaD map_cat cats1.
rewrite add0n size_mkseq; set loop2 := forM _ _ _.
have [sum -> ->] /= :
  exists2 s, loop2 = Done s & s = \sum_(0 <= i < 0 + n) g i.
  apply: (@forM_iota_ind _ (fun k s => s = \sum_(0 <= i < k) g i)).
    by rewrite big_geq.
  move=> i s; rewrite add0n /= => Hi ->.
  rewrite (fetch_nth 0) ?size_mkseq //= nth_mkseq //.
  by exists (\sum_(0 <= i0 < i) g i0 + g i) => //; rewrite big_nat_recr.
rewrite add0n /dist -/n; congr (Done (Num.sqrt _)).
apply: eq_big_nat => i /andP [_ Hi].
by rewrite /g /diff nth_mkseq // expr2.
Qed.

End PointFacts.

(** ** Eigen::MatrixXd: the operations on matrices of known shape *)

Section MatrixFacts.

Context {R : rcfType}.

Implicit Types (M : @MatrixXd R).

Lemma peek_ord r c (A : 'M[R]_(r, c)) (i : 'I_r) (j : 'I_c) :
  peek (Mx A) i j = A i j.
Proof. by rewrite /peek !valK. Qed.

Lemma peek_mk r c (f : nat -> nat -> R) i j :
  peek (mk r c f) i j = if (i < r)%N && (j < c)%N then f i j else 0.
Proof.
rewrite /peek /mk /=.
case: insubP => [i' Hi Ei|/negbTE ->] //=.
case: insubP => [j' Hj Ej|/negbTE ->] //=; last by rewrite andbF.
by rewrite Hi Hj mxE Ei Ej.
Qed.

Lemma mk_peek M : mk (rows M) (cols M) (peek M) = M.
Proof.
case: M => r c A; rewrite /mk /=; congr Mx.
by apply/matrixP => i j; rewrite mxE peek_ord.
Qed.

Lemma eq_mk r c (f g : nat -> nat -> R) :
  (forall i j, (i < r)%N -> (j < c)%N -> f i j = g i j) -> mk r c f = mk r c g.
Proof.
by move=> Hfg; congr Mx; apply/matrixP => i j; rewrite !mxE Hfg.
Qed.

Lemma transpose_Mx r c (A : 'M[R]_(r, c)) : transpose (Mx A) = Mx A^T.
Proof.
by rewrite /transpose /mk /=; congr Mx; apply/matrixP => i j; rewrite !mxE peek_ord.
Qed.

Lemma scale_Mx r c (a : R) (A : 'M[R]_(r, c)) : scale a (Mx A) = Mx (a *: A).
Proof.
by rewrite /scale /mk /=; congr Mx; apply/matrixP => i j; rewrite !mxE peek_ord.
Qed.

Lemma add_Mx r c (A B : 'M[R]_(r, c)) : add (Mx A) (Mx B) = Done (Mx (A + B)).
Proof.
rewrite /add /same_shape /= !eqxx /= /mk; congr (Done (Mx _)).
by apply/matrixP => i j; rewrite !mxE !peek_ord.
Qed.

Lemma sub_Mx r c (A B : 'M[R]_(r, c)) : sub (Mx A) (Mx B) = Done (Mx (A - B)).
Proof.
rewrite /sub /same_shape /= !eqxx /= /mk; congr (Done (Mx _)).
by apply/matrixP => i j; rewrite !mxE !peek_ord.
Qed.

Lemma mul_Mx m n p (A : 'M[R]_(m, n)) (B : 'M[R]_(n, p)) :
  mul (Mx A) (Mx B) = Done (Mx (A *m B)).
Proof.
rewrite /mul /= eqxx /mk; congr (Done (Mx _)).
apply/matrixP => i j; rewrite !mxE; apply: eq_bigr => k _.
by rewrite !peek_ord.
Qed.

Lemma determinant_Mx n (A : 'M[R]_n) : determinant (Mx A) = Done (\det A).
Proof.
rewrite /determinant /= eqxx; congr (Done (\det _)).
by apply/matrixP => i j; rewrite mxE peek_ord.
Qed.

Lemma Identity_Mx n : Identity n n = Mx (1%:M : 'M[R]_n).
Proof. by rewrite /Identity /mk; congr Mx; apply/matrixP => i j; rewrite !mxE. Qed.

(** Two matrices of one shape are equal when [Mx] of them is. *)
Lemma Mx_inj r c (A B : 'M[R]_(r, c)) : Mx A = Mx B -> A = B.
Proof.
move=> E; apply/matrixP => i j.
by rewrite -!peek_ord E.
Qed.

End MatrixFacts.

(** ** Kabsch rotation: closed form and properness *)

Section Kabsch.

Context {R : rcfType}.

Lemma negate_last_rowE n (M : 'M[R]_n) :
  negate_last_row M = diag_mx (last_sign n) *m M.
Proof.
apply/matrixP => i j; rewrite mul_diag_mx !mxE.
by case: eqP => _; rewrite ?mulN1r ?mul1r.
Qed.

Lemma det_last_sign n :
  (0 < n)%N -> \det (diag_mx (last_sign n : 'rV[R]_n)) = -1.
Proof.
case: n => // n _; rewrite det_diag big_ord_recr /= mxE eqxx.
rewrite big1 ?mul1r // => i _; rewrite mxE /=.
by rewrite eqSS (ltn_eqF (ltn_ord i)).
Qed.

Lemma last_sign_sqr n :
  diag_mx (last_sign n) *m diag_mx (last_sign n) = 1%:M :> 'M[R]_n.
Proof.
rewrite mulmx_diag -diag_const_mx; congr diag_mx.
apply/rowP => i; rewrite !mxE.
by case: eqP => _; rewrite ?mulrNN mulr1.
Qed.

Lemma orthogonal_sym n (M : 'M[R]_n) : M^T *m M = 1%:M -> M *m M^T = 1%:M.
Proof. by move=> H; apply: mulmx1C. Qed.

Lemma orthogonal_det n (M : 'M[R]_n) :
  M^T *m M = 1%:M -> \det M = 1 \/ \det M = -1.
Proof.
move/(congr1 (fun A => \det A)); rewrite det_mulmx det_tr det1 -expr2.
by move/eqP; rewrite sqrf_eq1 => /orP [] /eqP ->; [left | right].
Qed.

Lemma det_lt0_nonempty n (M : 'M[R]_n) : \det M < 0 -> (0 < n)%N.
Proof. by case: n M => // M; rewrite det_mx00 ltr10. Qed.

Lemma proper_rotationP n (U V : 'M[R]_n) :
  U^T *m U = 1%:M -> V^T *m V = 1%:M ->
  [/\ \det (proper_rotation (V *m U^T)) = 1,
      (proper_rotation (V *m U^T))^T *m proper_rotation (V *m U^T) = 1%:M
    & proper_rotation (V *m U^T) *m (proper_rotation (V *m U^T))^T = 1%:M].
Proof.
move=> HU HV; set M := V *m U^T.
have HM : M^T *m M = 1%:M.
  by rewrite /M trmx_mul trmxK mulmxA -(mulmxA U) HV mulmx1 orthogonal_sym.
have Hc : (proper_rotation M)^T *m proper_rotation M = 1%:M.
  rewrite /proper_rotation; case: ifP => // _.
  rewrite negate_last_rowE trmx_mul tr_diag_mx mulmxA -(mulmxA M^T).
  by rewrite last_sign_sqr mulmx1.
split=> //; last exact: orthogonal_sym.
rewrite /proper_rotation; case: ifPn => [Hneg|Hpos].
  rewrite negate_last_rowE det_mulmx det_last_sign ?(det_lt0_nonempty Hneg) //.
  case: (orthogonal_det HM) Hneg => ->; rewrite ?ltr10 // => _.
  by rewrite mulrNN mulr1.
case: (orthogonal_det HM) Hpos => -> //.
by rewrite oppr_lt0 ltr01.
Qed.

Lemma getCentroid_Mx r c (A : 'M[R]_(r, c)) : getCentroid (Mx A) = Mx (centroid A).
Proof.
rewrite /getCentroid /mk /=; congr Mx; apply/matrixP => i j; rewrite !mxE.
by congr (_ / _); apply: eq_bigr => k _; rewrite peek_ord.
Qed.

Lemma row_sub_Mx r c (A : 'M[R]_(r, c)) (k : nat) (v : 'rV[R]_c) :
  (k < r)%N ->
  row_sub (Mx A) k (Mx v)
  = Done (Mx (\matrix_(i, j) if i == k :> nat then A i j - v 0 j else A i j)).
Proof.
move=> Hk; rewrite /row_sub /= Hk !eqxx /= /mk; congr (Done (Mx _)).
apply/matrixP => i j; rewrite !mxE peek_ord.
by rewrite (peek_ord v ord0 j).
Qed.

Lemma row_scale_Mx r c (A : 'M[R]_(r, c)) (k : nat) (a : R) :
  (k < r)%N ->
  row_scale (Mx A) k a
  = Done (Mx (\matrix_(i, j) if i == k :> nat then A i j * a else A i j)).
Proof.
move=> Hk; rewrite /row_scale /= Hk /mk; congr (Done (Mx _)).
by apply/matrixP => i j; rewrite !mxE peek_ord.
Qed.

Lemma centering_loop r c (ref target : 'M[R]_(r, c)) :
  forM (iota 0 r)
    (fun k '(a, b) =>
       a' <- row_sub a k (transpose (getCentroid (Mx ref))) ;;
       b' <- row_sub b k (transpose (getCentroid (Mx target))) ;;
       Done (a', b'))
    (Mx ref, Mx target)
  = Done (Mx (centered ref), Mx (centered target)).
Proof.
pose part k (A : 'M[R]_(r, c)) : 'M[R]_(r, c) :=
  \matrix_(i, j) if (i < k)%N then A i j - (\sum_l A l j) / r%:R else A i j.
set loop := forM _ _ _.
have [st -> ->] :
  exists2 st, loop = Done st & st = (Mx (part (0 + r)%N ref), Mx (part (0 + r)%N target)).
  apply: (@forM_iota_ind _ (fun k st => st = (Mx (part k ref), Mx (part k target)))).
    by congr (_, _); congr Mx; apply/matrixP => i j; rewrite mxE.
  move=> k st; rewrite add0n /= => Hk ->.
  rewrite !getCentroid_Mx !transpose_Mx !row_sub_Mx //=.
  eexists; first by [].
  congr (_, _); congr Mx; apply/matrixP => i j;
    rewrite !mxE ltnS [(i <= k)%N]leq_eqVlt;
    by case: eqP => [->|_] /=; rewrite ?ltnn.
by congr (Done (_, _)); congr Mx; apply/matrixP => i j;
  rewrite !mxE add0n ltn_ord.
Qed.

Lemma solveForOptimalRotation_Mx {eigen : EigenSVD R} r c
    (ref target : 'M[R]_(r, c)) :
  let svd := JacobiSVD (kabsch_cov ref target) in
  solveForOptimalRotation (Mx ref) (Mx target)
  = Done (Mx (proper_rotation (svd.2 *m svd.1^T))).
Proof.
rewrite /solveForOptimalRotation /= centering_loop /=.
rewrite transpose_Mx mul_Mx /= -/(kabsch_cov ref target).
set svd := JacobiSVD _.
rewrite transpose_Mx mul_Mx /= determinant_Mx /= /proper_rotation.
case: ifP => // Hneg.
case: c ref target svd Hneg => [|c] ref target svd Hneg.
  by rewrite det_mx00 ltr10 in Hneg.
rewrite row_scale_Mx //; congr (Done (Mx _)).
apply/matrixP => i j; rewrite !mxE eqSS.
by case: eqP => _ //; rewrite mulrN1.
Qed.

End Kabsch.

(** ** Writing into a matrix *)

Section Writes.

Context {R : rcfType}.

Implicit Types (M : @MatrixXd R) (f : nat -> nat -> R).

Lemma coeff_mk r c f i j :
  (i < r)%N -> (j < c)%N -> coeff (mk r c f) i j = Done (f i j).
Proof. by move=> Hi Hj; rewrite /coeff /= peek_mk Hi Hj. Qed.

Lemma coeff_in M i j :
  (i < rows M)%N -> (j < cols M)%N -> coeff M i j = Done (peek M i j).
Proof. by move=> Hi Hj; rewrite /coeff Hi Hj. Qed.

Lemma poke_mk r c f i j v :
  (i < r)%N -> (j < c)%N ->
  poke (mk r c f) i j v
  = Done (mk r c (fun i' j' => if (i' == i) && (j' == j) then v else f i' j')).
Proof.
move=> Hi Hj; rewrite /poke /= Hi Hj /=; congr Done; apply: eq_mk => i' j' Hi' Hj'.
by rewrite peek_mk Hi' Hj'.
Qed.

Lemma set_col_mk r c f (g : nat -> nat -> R) i :
  (i < c)%N ->
  set_col (mk r c f) i (mk r 1 g)
  = Done (mk r c (fun i' j' => if j' == i then g i' 0%N else f i' j')).
Proof.
move=> Hi; rewrite /set_col /= Hi !eqxx /=; congr Done.
by apply: eq_mk => i' j' Hi' Hj'; rewrite !peek_mk Hi' Hj'.
Qed.

End Writes.

(** ** applyTransformation *)

Section ApplyTransformation.

Context {R : rcfType}.

Implicit Types (data translation rotation : @MatrixXd R).

Lemma broadcast_loop (junk : nat -> nat -> R) r c (t : nat -> R)
    (rd : nat -> outcome R) :
  (forall i, (i < c)%N -> rd i = Done (t i)) ->
  forM (iota 0 c)
    (fun i trans => x <- rd i ;; set_col trans i (scale x (Ones r 1)))
    (unset junk r c)
  = Done (broadcast r c t).
Proof.
move=> Hrd; set loop := forM _ _ _.
pose part k := mk r c (fun i j => if (j < k)%N then t j else junk i j).
have [trans -> ->] : exists2 s, loop = Done s & s = part (0 + c)%N.
  apply: (@forM_iota_ind _ (fun k s => s = part k)).
    by apply: eq_mk.
  move=> i s; rewrite add0n /= => Hi ->.
  rewrite Hrd //= /scale /= set_col_mk //.
  eexists; first by [].
  apply: eq_mk => i' j' Hi' Hj'; rewrite peek_mk Hi' /= mulr1 ltnS.
  by rewrite [(j' <= i)%N]leq_eqVlt; case: eqP => [->|_].
by congr Done; apply: eq_mk => i j _ Hj; rewrite add0n Hj.
Qed.

(** When the translation already has the shape of the data, no branch
    assigns [trans]: the storage is added to the data as it is. *)
Lemma applyTransformation_same_shape junk data translation rotation :
  same_shape translation data ->
  applyTransformation junk data translation rotation
  = (s <- add data (unset junk (rows data) (cols data)) ;; mul s rotation).
Proof.
by rewrite /same_shape /applyTransformation => /andP [/eqP -> /eqP ->]; rewrite !eqxx.
Qed.

Lemma applyTransformation_column junk data translation rotation :
  ~~ same_shape translation data -> cols translation = 1%N ->
  (cols data <= rows translation)%N -> cols data = rows rotation ->
  applyTransformation junk data translation rotation
  = (s <- add data (broadcast (rows data) (cols data)
                      (fun j => peek translation j 0)) ;;
     mul s rotation).
Proof.
rewrite /same_shape negb_and /applyTransformation => -> Hc Ht Hr.
rewrite Hc eqxx (@broadcast_loop _ _ _ (fun j => peek translation j 0)) //.
by move=> i Hi; rewrite coeff_in ?Hc // (leq_trans Hi).
Qed.

Lemma applyTransformation_row junk data translation rotation :
  ~~ same_shape translation data -> cols translation != 1%N ->
  rows translation = 1%N ->
  (cols data <= cols translation)%N -> cols data = rows rotation ->
  applyTransformation junk data translation rotation
  = (s <- add data (broadcast (rows data) (cols data)
                      (fun j => peek translation 0 j)) ;;
     mul s rotation).
Proof.
rewrite /same_shape negb_and /applyTransformation => -> /negbTE -> Hr Ht _.
rewrite Hr eqxx (@broadcast_loop _ _ _ (fun j => peek translation 0 j)) //.
by move=> i Hi; rewrite coeff_in ?Hr // (leq_trans Hi).
Qed.

(** The same on matrices of known shape. *)
Lemma applyTransformation_same_shape_Mx junk r c p
    (data translation : 'M[R]_(r, c)) (rotation : 'M[R]_(c, p)) :
  applyTransformation junk (Mx data) (Mx translation) (Mx rotation)
  = Done (Mx ((data + \matrix_(i, j) junk i j) *m rotation)).
Proof.
rewrite applyTransformation_same_shape /same_shape /= ?eqxx //.
by rewrite /unset /mk add_Mx /= mul_Mx.
Qed.

Lemma applyTransformation_column_Mx junk r c p (data : 'M[R]_(r, c))
    (translation : 'cV[R]_c) (rotation : 'M[R]_(c, p)) :
  (r != 1%N) || (c != 1%N) ->
  applyTransformation junk (Mx data) (Mx translation) (Mx rotation)
  = Done (Mx ((data + \matrix_(i, j) translation j 0) *m rotation)).
Proof.
move=> Hs.
have Hns : ~~ ((c == r) && (1%N == c)).
  apply/negP => /andP [/eqP Hcr /eqP Hc]; move: Hs.
  by rewrite -Hcr -Hc.
rewrite applyTransformation_column /same_shape //=.
have -> : broadcast r c (fun j => peek (Mx translation) j 0)
          = Mx (\matrix_(i < r, j < c) translation j 0).
  rewrite /broadcast /mk; congr Mx; apply/matrixP => i j; rewrite !mxE.
  exact: (peek_ord translation j ord0).
by rewrite add_Mx /= mul_Mx.
Qed.

Lemma applyTransformation_row_Mx junk r c p (data : 'M[R]_(r, c))
    (translation : 'rV[R]_c) (rotation : 'M[R]_(c, p)) :
  r != 1%N ->
  applyTransformation junk (Mx data) (Mx translation) (Mx rotation)
  = Done (Mx ((data + \matrix_(i, j) translation 0 j) *m rotation)).
Proof.
move=> Hr.
have Eb (t : nat -> R) : (forall j : 'I_c, t j = translation 0 j) ->
    broadcast r c t = Mx (\matrix_(i < r, j < c) translation 0 j).
  move=> Ht; rewrite /broadcast /mk; congr Mx.
  by apply/matrixP => i j; rewrite !mxE.
have Hns : ~~ @same_shape R (Mx translation) (Mx data).
  by rewrite /same_shape /= eq_sym (negbTE Hr).
have [Hc|Hc] := eqVneq c 1%N.
  (* a 1 x 1 translation is taken by the column branch *)
  have Hle : (c <= 1)%N by rewrite Hc.
  rewrite (@applyTransformation_column junk _ _ (Mx rotation) Hns Hc Hle) //=.
  rewrite (Eb (fun j => peek (Mx translation) j 0)) ?add_Mx /= ?mul_Mx //.
  move=> j; move: translation j {Eb Hns}; rewrite Hc => translation j.
  by rewrite !ord1 (peek_ord translation ord0 ord0).
rewrite (applyTransformation_row _ Hns) //=.
rewrite (Eb (fun j => peek (Mx translation) 0 j)) ?add_Mx /= ?mul_Mx //.
by move=> j; exact: (peek_ord translation ord0 j).
Qed.

End ApplyTransformation.

(** ** RMSE *)

Section RMSEFacts.

Context {R : rcfType}.

Lemma squares_loop r c (f : nat -> nat -> R) :
  forM (iota 0 r)
    (fun i squares =>
       forM (iota 0 c)
         (fun j squares =>
            val <- coeff (mk r c f) i j ;;
            let newVal := val * val in
            poke squares i j newVal)
         squares)
    (Zero r c)
  = Done (mk r c (fun i j => f i j * f i j)).
Proof.
set loop := forM _ _ _.
pose part k l :=
  mk r c (fun i j => if (i < k)%N || (i == k) && (j < l)%N
                     then f i j * f i j else 0).
have [sq -> ->] : exists2 s, loop = Done s & s = part (0 + r)%N 0%N.
  apply: (@forM_iota_ind _ (fun k s => s = part k 0%N)).
    by apply: eq_mk => i j _ _; rewrite ltn0 andbF.
  move=> i s; rewrite add0n /= => Hi ->.
  set row := forM _ _ _.
  have [s' -> ->] : exists2 s', row = Done s' & s' = part i (0 + c)%N.
    apply: (@forM_iota_ind _ (fun l s => s = part i l)) => //.
    move=> j s'; rewrite add0n /= => Hj ->.
    rewrite coeff_mk //= poke_mk //.
    eexists; first by [].
    apply: eq_mk => i' j' Hi' Hj'; rewrite ltnS [(j' <= j)%N]leq_eqVlt.
    have [->|Hii] /= := eqVneq i' i; last by rewrite !orbF.
    by rewrite ltnn /=; case: eqP => [->|_].
  eexists; first by [].
  apply: eq_mk => i' j' Hi' Hj'; rewrite add0n Hj' andbT ltn0 andbF orbF.
  by rewrite ltnS [(i' <= i)%N]leq_eqVlt orbC.
congr Done; apply: eq_mk => i j Hi _.
by rewrite add0n Hi.
Qed.

Lemma sum_loop (e : fault) (v : seq R) :
  forM (iota 0 (size v))
    (fun x acc => s <- fetch e v x ;; Done (acc + s)) 0
  = Done (\sum_(0 <= x < size v) nth 0 v x).
Proof.
set loop := forM _ _ _.
have [s -> ->] :
  exists2 s, loop = Done s & s = \sum_(0 <= x < 0 + size v) nth 0 v x.
  apply: (@forM_iota_ind _ (fun k s => s = \sum_(0 <= x < k) nth 0 v x)).
    by rewrite big_geq.
  move=> i s; rewrite add0n /= => Hi ->.
  rewrite (fetch_nth 0) //=.
  by eexists; first by []; rewrite big_nat_recr.
by rewrite add0n.
Qed.

Lemma collect_loop (n : nat) (g : nat -> R) (rd : nat -> outcome R) :
  (forall i, (i < n)%N -> rd i = Done (g i)) ->
  forM (iota 0 n) (fun i v => x <- rd i ;; Done (rcons v x)) [::]
  = Done (mkseq g n).
Proof.
move=> Hrd; set loop := forM _ _ _.
have [s -> ->] : exists2 s, loop = Done s & s = mkseq g (0 + n).
  apply: (@forM_iota_ind _ (fun k s => s = mkseq g k)) => //.
  move=> i s; rewrite add0n /= => Hi ->.
  rewrite Hrd //=; eexists; first by [].
  by rewrite /mkseq -addn1 iotaD map_cat cats1.
by rewrite add0n.
Qed.

Lemma RMSE_mismatch (a b : @MatrixXd R) :
  msize a != msize b -> RMSE a b = Done (0, [:: SizeMismatch]).
Proof. by rewrite /RMSE => ->. Qed.

Lemma RMSE_Mx r c (a b : 'M[R]_(r, c)) :
  RMSE (Mx a) (Mx b) = Done (sum_row_norms (a - b), [::]).
Proof.
rewrite /RMSE /msize /= eqxx /= sub_Mx /=.
pose D i j := peek (Mx (a - b)) i j.
have -> : Mx (a - b) = mk r c D by rewrite -[LHS]mk_peek.
rewrite squares_loop /=.
pose sq := mk r c (fun i j => D i j * D i j).
pose rs i := \sum_(j < c) peek sq i j.
have Hrs i : (i < r)%N -> rowsum sq i = Done (rs i).
  by move=> Hi; rewrite /rowsum /= Hi.
rewrite (collect_loop Hrs) /= size_mkseq.
have Hsq i : (i < r)%N ->
    (s <- fetch OutOfRange (mkseq rs r) i ;; Done (Num.sqrt s))
    = Done (Num.sqrt (rs i)).
  by move=> Hi; rewrite (fetch_nth 0) ?size_mkseq //= nth_mkseq.
have -> : forall v0,
    forM (iota 0 r)
      (fun q sqrts =>
         s <- fetch OutOfRange (mkseq rs r) q ;; Done (rcons sqrts (Num.sqrt s)))
      v0
    = forM (iota 0 r)
        (fun q sqrts =>
           x <- (s <- fetch OutOfRange (mkseq rs r) q ;; Done (Num.sqrt s)) ;;
           Done (rcons sqrts x))
        v0.
  move=> v0; elim: (iota 0 r) v0 => //= q l IH v0.
  by case: (fetch _ _ _) => //= x; rewrite IH.
rewrite (collect_loop Hsq) /=.
rewrite sum_loop /= size_mkseq; congr (Done (_, _)).
rewrite big_mkord /sum_row_norms; apply: eq_bigr => i _.
rewrite nth_mkseq //; congr Num.sqrt; apply: eq_bigr => j _.
by rewrite /sq peek_mk !ltn_ord /= /D peek_ord expr2.
Qed.

End RMSEFacts.

(** ** match(): the nearest-neighbour search *)

Section Search.

Context {R : rcfType}.

Implicit Types (tar ref best : seq R) (refs : seq (seq R)).

Lemma millionE : million = 10%:R ^+ 6 :> R.
Proof. by rewrite /million /decimal /= mul0r add0r !addr0 !exprS expr0 !mulrA mulr1 mul1r. Qed.

Lemma million_gt0 : 0 < million :> R.
Proof. by rewrite millionE exprn_gt0 // ltr0n. Qed.

Lemma linear_searchE refs (tars : seq (seq R)) tar (init : R * seq R) :
  (size tars <= size refs)%N ->
  (forall ref, ref \in refs -> size ref <= size tar)%N ->
  linear_search refs tars tar init
  = Done (foldl (search_step tar) init (take (size tars) refs)).
Proof.
move=> Hsz Hall; rewrite /linear_search; set loop := forM _ _ _.
have [acc -> ->] : exists2 acc, loop = Done acc
    & acc = foldl (search_step tar) init (take (0 + size tars) refs).
  apply: (@forM_iota_ind _
            (fun k acc => acc = foldl (search_step tar) init (take k refs))).
    by rewrite take0.
  move=> j acc; rewrite add0n /= => Hj ->.
  have Hjr : (j < size refs)%N := leq_trans Hj Hsz.
  rewrite (fetch_nth [::]) //= distanceToE ?Hall ?mem_nth //=.
  rewrite (take_nth [::]) // -cats1 foldl_cat /=.
  case: (foldl _ _ _) => bd b /=; rewrite /search_step /=.
  by case: ifP => _; eexists.
by rewrite add0n.
Qed.

Lemma nearest_rcons refs ref tar best0 :
  nearest (rcons refs ref) tar best0
  = search_step tar (nearest refs tar best0) ref.
Proof. by rewrite /nearest -cats1 foldl_cat. Qed.

Lemma nearest_mem refs tar best0 :
  (nearest refs tar best0).2 \in best0 :: refs.
Proof.
elim/last_ind: refs => [|refs ref IH]; first by rewrite mem_head.
rewrite nearest_rcons /search_step; case: ifP => _ /=.
  by rewrite inE mem_rcons mem_head orbT.
by move: IH; rewrite !inE mem_rcons inE => /orP [->|->] //; rewrite !orbT.
Qed.

(** No reference point closer than the initial bound: the search returns
    its initial candidate. *)
Lemma nearest_far refs tar best0 :
  (forall ref, ref \in refs -> million <= dist tar ref) ->
  nearest refs tar best0 = (million, best0).
Proof.
elim/last_ind: refs => [|refs ref IH] // Hfar.
have Hrefs x : x \in refs -> million <= dist tar x.
  by move=> Hx; apply: Hfar; rewrite mem_rcons inE Hx orbT.
rewrite nearest_rcons (IH Hrefs) /search_step /=.
by rewrite ltNge Hfar // mem_rcons mem_head.
Qed.

(** Some reference point closer than the bound: the search returns the
    first reference point at minimal distance. *)
Lemma nearest_min refs tar best0 :
  (exists2 ref, ref \in refs & dist tar ref < million) ->
  exists j,
    [/\ (j < size refs)%N,
        nearest refs tar best0
        = (dist tar (nth [::] refs j), nth [::] refs j),
        forall k, (k < size refs)%N ->
          dist tar (nth [::] refs j) <= dist tar (nth [::] refs k)
      & forall k, (k < j)%N ->
          dist tar (nth [::] refs j) < dist tar (nth [::] refs k)].
Proof.
elim/last_ind: refs => [|refs ref IH]; first by case=> x; rewrite in_nil.
case=> x; rewrite mem_rcons inE => Hx Hlt.
rewrite nearest_rcons /search_step size_rcons.
have Hlast : nth [::] (rcons refs ref) (size refs) = ref.
  by rewrite nth_rcons ltnn eqxx.
have Hprev k : (k < size refs)%N -> nth [::] (rcons refs ref) k = nth [::] refs k.
  by move=> Hk; rewrite nth_rcons Hk.
have [Hnear|Hfar] :=
  boolP (has (fun y => dist tar y < million) refs).
  (* a point closer than the bound was already seen *)
  have [|j [Hj -> Hmin Hfirst]] := IH.
    by case/hasP: Hnear => y Hy Hd; exists y.
  rewrite /=; case: ifPn => Hnew.
    exists (size refs); rewrite Hlast; split=> // k.
      rewrite ltnS leq_eqVlt => /orP [/eqP ->|Hk]; first by rewrite Hlast.
      by rewrite Hprev //; apply: le_trans (ltW Hnew) (Hmin _ Hk).
    by move=> Hk; rewrite Hprev //; apply: lt_le_trans Hnew (Hmin _ Hk).
  exists j; rewrite Hprev //; split=> //; first exact: ltnW.
    move=> k; rewrite ltnS leq_eqVlt => /orP [/eqP ->|Hk].
      by rewrite Hlast leNgt.
    by rewrite Hprev // Hmin.
  by move=> k Hk; rewrite Hprev ?(ltn_trans Hk Hj) // Hfirst.
(* the new point is the first one closer than the bound *)
have Hold y : y \in refs -> million <= dist tar y.
  move=> Hy; rewrite leNgt; apply: contra Hfar => Hd.
  by apply/hasP; exists y.
have Hxref : dist tar ref < million.
  case/orP: Hx => [/eqP <- //|Hx].
  by move: (Hold _ Hx); rewrite leNgt Hlt.
rewrite (nearest_far _ Hold) /= Hxref.
exists (size refs); rewrite Hlast; split=> // k.
  rewrite ltnS leq_eqVlt => /orP [/eqP ->|Hk]; first by rewrite Hlast.
  by rewrite Hprev // ltW // (lt_le_trans Hxref) // Hold // mem_nth.
by move=> Hk; rewrite Hprev // (lt_le_trans Hxref) // Hold // mem_nth.
Qed.

End Search.

(** ** match(): the three loops *)

Section MatchFacts.

Context {R : rcfType}.

Implicit Types (this : @ICP R) (M cur tgt : @MatrixXd R).

Lemma set_lists_id this :
  set_refPoints (refPoints this) (set_tarPoints (tarPoints this) this) = this.
Proof. by case: this. Qed.

Lemma set_closest_id this : set_closestPoints (closestPoints this) this = this.
Proof. by case: this. Qed.

Lemma mkseqSr (T : Type) (f : nat -> T) n :
  mkseq f n.+1 = rcons (mkseq f n) (f n).
Proof. by rewrite /mkseq -addn1 iotaD map_cat cats1. Qed.

Lemma row_points_loop cur tgt r0 c :
  (r0 < rows cur)%N -> (c <= cols cur)%N ->
  (r0 < rows tgt)%N -> (c <= cols tgt)%N ->
  forM (iota 0 c)
    (fun c0 '(ref, tar) =>
       x <- coeff cur r0 c0 ;;
       ref <- setValue x c0 ref ;;
       y <- coeff tgt r0 c0 ;;
       tar <- setValue y c0 tar ;;
       Done (ref, tar))
    (prepare c [::], prepare c [::])
  = Done (row_prefix cur c r0, row_prefix tgt c r0).
Proof.
move=> Hrc Hcc Hrt Hct; rewrite !prepare_nil; set loop := forM _ _ _.
pose Q (f : nat -> R) l (p : seq R) :=
  size p = c /\ forall i, nth 0 p i = if (i < l)%N then f i else 0.
pose P l (st : seq R * seq R) := Q (peek cur r0) l st.1 /\ Q (peek tgt r0) l st.2.
have HQ0 f : Q f 0%N (zero_point c).
  by split=> [|i]; rewrite ?size_nseq // nth_nseq if_same.
have HQS f l p : (l < c)%N -> Q f l p -> Q f l.+1 (set_nth 0 p l (f l)).
  move=> Hl [Hsz Hnth]; split.
    by rewrite size_set_nth Hsz; apply/maxn_idPr.
  move=> j; rewrite nth_set_nth /= Hnth ltnS [(j <= l)%N]leq_eqVlt.
  by case: (j =P l) => [->|_].
have HQE f p : Q f c p -> p = mkseq f c.
  case=> Hsz Hnth; apply: (@eq_from_nth _ 0); rewrite ?size_mkseq // Hsz => i Hi.
  by rewrite Hnth Hi nth_mkseq.
have [[ref tar] -> [/= /HQE -> /HQE ->]] //:
    exists2 st, loop = Done st & P (0 + c)%N st.
apply: forM_iota_ind => // l [ref tar]; rewrite add0n /= => Hl [/= Hr Ht].
rewrite !coeff_in ?(leq_trans Hl) //= /setValue.
rewrite !(store_set_nth 0) ?(proj1 Hr) ?(proj1 Ht) //=.
by eexists; first by []; split; apply: HQS.
Qed.

Lemma points_loop this r c :
  (r <= rows (curRef this))%N -> (c <= cols (curRef this))%N ->
  (r <= rows (mTarget this))%N -> (c <= cols (mTarget this))%N ->
  forM (iota 0 r)
    (fun r0 this =>
       let ref := prepare c [::] in
       let tar := prepare c [::] in
       ' (ref, tar) <-
         forM (iota 0 c)
           (fun c0 '(ref, tar) =>
              x <- coeff (curRef this) r0 c0 ;;
              ref <- setValue x c0 ref ;;
              y <- coeff (mTarget this) r0 c0 ;;
              tar <- setValue y c0 tar ;;
              Done (ref, tar))
           (ref, tar) ;;
       let this := set_tarPoints (rcons (tarPoints this) tar) this in
       Done (set_refPoints (rcons (refPoints this) ref) this))
    this
  = Done (set_refPoints
            (refPoints this ++ mkseq (row_prefix (curRef this) c) r)
            (set_tarPoints
               (tarPoints this ++ mkseq (row_prefix (mTarget this) c) r)
               this)).
Proof.
move=> Hrc Hcc Hrt Hct; set loop := forM _ _ _.
pose part k :=
  set_refPoints (refPoints this ++ mkseq (row_prefix (curRef this) c) k)
    (set_tarPoints (tarPoints this ++ mkseq (row_prefix (mTarget this) c) k)
       this).
have [st -> ->] //: exists2 st, loop = Done st & st = part (0 + r)%N.
apply: (@forM_iota_ind _ (fun k st => st = part k)).
  by rewrite /part /= !cats0 set_lists_id.
move=> k st; rewrite add0n /= => Hk ->.
rewrite /part /= row_points_loop ?(leq_trans Hk) //=.
eexists; first by [].
by rewrite /part /= !mkseqSr -!rcons_cat.
Qed.

Lemma search_loop this (n c : nat) :
  size (refPoints this) = n -> size (tarPoints this) = n ->
  (forall p, p \in refPoints this -> size p = c) ->
  (forall p, p \in tarPoints this -> size p = c) ->
  forM (iota 0 n)
    (fun i this =>
       let bestDistance := decimal [:: 1; 0; 0; 0; 0; 0; 0] in
       tar <- fetch OutOfRange (tarPoints this) i ;;
       ref0 <- fetch OutOfRange (refPoints this) 0 ;;
       let best := prepare (size ref0) [::] in
       ' (_, best) <-
         linear_search (refPoints this) (tarPoints this) tar
           (bestDistance, best) ;;
       Done (set_closestPoints (rcons (closestPoints this) best) this))
    this
  = Done (set_closestPoints
            (closestPoints this
             ++ mkseq (fun i => (nearest (refPoints this)
                                   (nth [::] (tarPoints this) i)
                                   (zero_point c)).2) n)
            this).
Proof.
move=> Hnr Hnt Hcr Hct; set loop := forM _ _ _.
pose h i :=
  (nearest (refPoints this) (nth [::] (tarPoints this) i) (zero_point c)).2.
pose part k := set_closestPoints (closestPoints this ++ mkseq h k) this.
have [st -> ->] //: exists2 st, loop = Done st & st = part (0 + n)%N.
apply: (@forM_iota_ind _ (fun k st => st = part k)).
  by rewrite /part /= cats0 set_closest_id.
move=> i st; rewrite add0n /= => Hi ->.
rewrite /part /= (fetch_nth [::]) ?Hnt //= (fetch_nth [::]) ?Hnr ?(leq_ltn_trans _ Hi) //=.
rewrite prepare_nil Hcr ?mem_nth ?Hnr ?(leq_ltn_trans _ Hi) //.
have Hsz ref : ref \in refPoints this ->
    (size ref <= size (nth [::] (tarPoints this) i))%N.
  by move=> Href; rewrite Hcr // Hct // mem_nth // Hnt.
rewrite (linear_searchE _ _ Hsz) ?Hnt ?Hnr //.
rewrite -Hnr take_size -/(nearest _ _ _) -/(h i).
case E: (nearest _ _ _) => [bd best] /=.
eexists; first by [].
by rewrite /part /= mkseqSr -rcons_cat /h E.
Qed.

Lemma closest_loop (junk : nat -> nat -> R) (cps : seq (seq R)) n c :
  size cps = n -> (forall p, p \in cps -> size p = c) ->
  forM (iota 0 n)
    (fun x closest =>
       p <- fetch OutOfRange cps x ;;
       forM (iota 0 (size p))
         (fun y closest => v <- fetch Undefined p y ;; poke closest x y v)
         closest)
    (unset junk n c)
  = Done (mk n c (fun x y => nth 0 (nth [::] cps x) y)).
Proof.
move=> Hn Hc; set loop := forM _ _ _.
pose f x y := nth 0 (nth [::] cps x) y.
pose part k l :=
  mk n c (fun i j => if (i < k)%N || (i == k) && (j < l)%N
                     then f i j else junk i j).
have [M -> ->] : exists2 M, loop = Done M & M = part (0 + n)%N 0%N.
  apply: (@forM_iota_ind _ (fun k M => M = part k 0%N)).
    by apply: eq_mk => i j _ _; rewrite ltn0 andbF.
  move=> x M; rewrite add0n /= => Hx ->.
  rewrite (fetch_nth [::]) ?Hn //= Hc ?mem_nth ?Hn //.
  set row := forM _ _ _.
  have [M' -> ->] : exists2 M', row = Done M' & M' = part x (0 + c)%N.
    apply: (@forM_iota_ind _ (fun l M => M = part x l)) => //.
    move=> y M'; rewrite add0n /= => Hy ->.
    rewrite (fetch_nth 0) ?Hc ?mem_nth ?Hn //= poke_mk //.
    eexists; first by [].
    apply: eq_mk => i j Hi Hj; rewrite ltnS [(j <= y)%N]leq_eqVlt.
    have [->|Hix] /= := eqVneq i x; last by rewrite !orbF.
    by rewrite ltnn /=; case: eqP => [->|_].
  eexists; first by [].
  apply: eq_mk => i j Hi Hj; rewrite add0n Hj andbT ltn0 andbF orbF.
  by rewrite ltnS [(i <= x)%N]leq_eqVlt orbC.
by congr Done; apply: eq_mk => i j Hi _; rewrite add0n Hi.
Qed.

Lemma size_points r c (A : 'M[R]_(r, c)) : size (points A) = r.
Proof. by rewrite size_mkseq. Qed.

Lemma size_point r c (A : 'M[R]_(r, c)) p : p \in points A -> size p = c.
Proof. by case/mapP => i _ ->; rewrite size_mkseq. Qed.

Lemma size_best_match r c (cur tgt : 'M[R]_(r, c)) p :
  p \in best_matches cur tgt -> size p = c.
Proof.
case/mapP => i _ ->.
have := nearest_mem (points cur) (nth [::] (points tgt) i) (zero_point c).
by rewrite inE => /orP [/eqP ->|/size_point //]; rewrite size_nseq.
Qed.

Lemma match_E junk this r c (cur tgt : 'M[R]_(r, c)) :
  (0 < r)%N ->
  rows (mRef this) = r -> cols (mRef this) = c ->
  curRef this = Mx cur -> mTarget this = Mx tgt ->
  refPoints this = [::] -> tarPoints this = [::] ->
  closestPoints this = [::] ->
  match_ junk this
  = Done (set_closestPoints (best_matches cur tgt)
            (set_refPoints (points cur) (set_tarPoints (points tgt) this)),
          mk r c (fun x y => nth 0 (nth [::] (best_matches cur tgt) x) y)).
Proof.
move=> Hr0 Hr Hc Hcur Htgt Hrefs Htars Hcps.
rewrite /match_; cbv zeta; rewrite Hr Hc.
rewrite points_loop ?Hcur ?Htgt //=.
rewrite Hrefs Htars /= -!/(points _) size_points.
rewrite (@search_loop _ r c) /= ?size_points //; try exact: size_point.
rewrite Hcps /= -/(best_matches cur tgt).
have Hsz : size (best_matches cur tgt) = r by rewrite size_mkseq.
rewrite (fetch_nth [::]) ?Hsz //= ?Hsz.
rewrite (@size_best_match _ _ cur tgt) ?mem_nth ?Hsz //.
by rewrite closest_loop //; exact: size_best_match.
Qed.

End MatchFacts.

(** ** One round of solve() on point sets of known shape *)

Section Round.

Context {R : rcfType} {libm : MathLib R} {eigen : EigenSVD R}.

Implicit Types (this : @ICP R).

Lemma rotMatrixToDegreesE (rot : @MatrixXd R) :
  (1 < rows rot)%N -> (0 < cols rot)%N ->
  rotMatrixToDegrees rot = Done (degrees (peek rot 1 0)).
Proof. by move=> Hr Hc; rewrite /rotMatrixToDegrees coeff_in. Qed.

Lemma rotMatrixToDegrees_Done (rot : @MatrixXd R) (a : R) :
  rotMatrixToDegrees rot = Done a ->
  exists2 x, coeff rot 1 0 = Done x & a = asin x * 180%:R / PI.
Proof.
rewrite /rotMatrixToDegrees; case: (coeff rot 1 0) => //= x [<-].
by exists x.
Qed.

Lemma angleToRotMatrixE junk angle size :
  (1 < size)%N ->
  angleToRotMatrix junk angle size
  = Done (mk size size (rot_entries junk angle)).
Proof.
move=> Hs; have H0 : (0 < size)%N := ltnW Hs.
by rewrite /angleToRotMatrix /unset poke_mk //= poke_mk //= poke_mk //= poke_mk //=.
Qed.

Lemma angleToRotMatrix_Done junk angle size rot :
  angleToRotMatrix junk angle size = Done rot ->
  [/\ rot = mk size size (rot_entries junk angle),
      coeff rot 0 0 = Done (cos (angle * PI / 180%:R)),
      coeff rot 0 1 = Done (- sin (angle * PI / 180%:R)),
      coeff rot 1 0 = Done (sin (angle * PI / 180%:R))
    & coeff rot 1 1 = Done (cos (angle * PI / 180%:R))].
Proof.
have [Hs|Hs] := ltnP 1 size; last first.
  rewrite /angleToRotMatrix /unset.
  case: size Hs => [|[|//]] _; first by rewrite /poke.
  by rewrite poke_mk //= /poke /=.
rewrite angleToRotMatrixE // => -[<-].
by rewrite !coeff_mk // (ltnW Hs).
Qed.

Lemma solveForOptimalTranslation_Mx r c (ref target : 'M[R]_(r, c))
    (rot : 'M[R]_c) :
  solveForOptimalTranslation (Mx ref) (Mx target) (Mx rot)
  = Done (Mx ((-1 *: rot) *m centroid target + centroid ref)).
Proof.
by rewrite /solveForOptimalTranslation !getCentroid_Mx scale_Mx mul_Mx /= add_Mx.
Qed.

Lemma solve_roundE (junk : storage) k this cout r c
    (cur tgt : 'M[R]_(r, c)) (rot : 'M[R]_c) :
  (0 < r)%N -> (1 < c)%N ->
  rows (mRef this) = r -> cols (mRef this) = c ->
  curRef this = Mx cur -> mTarget this = Mx tgt -> rotation this = Mx rot ->
  let rot' := next_rotation (junk (3 * k + 1)%N) rot cur tgt in
  let ref' := next_ref (junk (3 * k + 1)%N) rot cur tgt in
  solve_round junk k (this, cout)
  = Done (MkICP (mRef this) (mTarget this) (Mx ref')
            (solvedTransform this) (solvedRotation this)
            (Mx (new_translation cur tgt)) (transform this)
            (Mx rot') (rotation this)
            (points cur) (points tgt) (best_matches cur tgt)
            (iterations this - 1),
          cout ++ [:: ErrorReport (sum_row_norms (tgt - ref'))]).
Proof.
move=> Hr0 Hc1 Hr Hc Hcur Htgt Hrot; rewrite /solve_round.
have Hc0 : (0 < c)%N := ltnW Hc1.
set this2 := set_lastRotation _ _.
rewrite (@match_E _ _ this2 r c cur tgt Hr0 Hr Hc Hcur Htgt erefl erefl erefl) /=.
rewrite Htgt -/(Mx (closest_mx cur tgt)) solveForOptimalRotation_Mx /=.
rewrite -/(new_rotation cur tgt) solveForOptimalTranslation_Mx /=.
rewrite -/(new_translation cur tgt) Hrot !rotMatrixToDegreesE //=.
rewrite -/(new_angle rot cur tgt) angleToRotMatrixE //=.
rewrite -/(Mx (next_rotation (junk (3 * k + 1)%N) rot cur tgt)) Hcur.
have Hns : (r != 1%N) || (c != 1%N) by rewrite (gtn_eqF Hc1) orbT.
rewrite (applyTransformation_column_Mx _ _ _ _ Hns).
rewrite /= RMSE_Mx /= /this2.
lazy beta iota delta
  [set_iterations set_curRef set_transform set_rotation set_closestPoints
   set_refPoints set_tarPoints set_lastRotation set_lastTransform
   mRef mTarget curRef solvedTransform solvedRotation transform lastTransform
   rotation lastRotation refPoints tarPoints closestPoints iterations].
by rewrite -/(mTarget this) -/(rotation this) Htgt Hrot.
Qed.

End Round.

(** ** What a round leaves untouched *)

Section Frame.

Context {R : rcfType} {libm : MathLib R} {eigen : EigenSVD R}.

Implicit Types (this : @ICP R).

Lemma same_matrices_refl this : same_matrices this this.
Proof. by split. Qed.

Lemma match_frame junk this this' closest :
  match_ junk this = Done (this', closest) -> same_matrices this this'.
Proof.
rewrite /match_; cbv zeta.
case E1: (forM _ _ this) => [this1|//|//] /=.
case E2: (forM _ _ this1) => [this2|//|//] /=.
case: (fetch _ _ _) => //= p0; case: (forM _ _ _) => //= M [<- _].
have H1 : same_matrices this this1.
  apply: (forM_inv _ E1 (same_matrices_refl this)) => i a b.
  by case: (forM _ _ _) => //= -[ref tar] [<-].
apply: (forM_inv _ E2 H1) => i a b.
case: (fetch _ _ _) => //= tar; case: (fetch _ _ _) => //= ref0.
by case: (linear_search _ _ _ _) => //= -[bd best] [<-].
Qed.

Lemma solve_round_frame junk k this cout this' cout' :
  solve_round junk k (this, cout) = Done (this', cout') ->
  same_inputs this this'.
Proof.
rewrite /solve_round; set this2 := set_lastRotation _ _.
case E: (match_ _ this2) => [[this3 closest]|//|//] /=.
have [[H1 H2 H3 H4] _ _ _ _] := match_frame E.
case: (solveForOptimalRotation _ _) => //= newRot.
case: (solveForOptimalTranslation _ _ _) => //= newTrans.
case: (rotMatrixToDegrees _) => //= lastAngle.
case: (rotMatrixToDegrees _) => //= angle.
case: (angleToRotMatrix _ _ _) => //= rot.
case: (applyTransformation _ _ _ _) => //= newRef.
case: (RMSE _ _) => //= -[error printed] [<- _].
by split.
Qed.

Lemma while_inv (S : Type) (P : S -> Prop) fuel cond
    (body : nat -> S -> outcome S) k st k' st' :
  (forall i a b, body i a = Done b -> P a -> P b) ->
  while_ fuel cond body k st = Done (k', st') -> P st -> P st'.
Proof.
move=> step; elim: fuel k st => [//|fuel IH] k st /=.
case: ifP => _; last by case=> _ <-.
case E: (body k st) => [a|//|//] /= Hw Pst.
exact: IH Hw (step _ _ _ E Pst).
Qed.

End Frame.

(** ** solve(): the loop *)

Section SolveFacts.

Context {R : rcfType} {libm : MathLib R} {eigen : EigenSVD R}.

Implicit Types (this : @ICP R).

Local Arguments solve_round : simpl never.

Lemma solve_round_ok (junk : storage) k this cout r c :
  (0 < r)%N -> (1 < c)%N -> well_shaped r c this ->
  exists this' e,
    [/\ solve_round junk k (this, cout)
        = Done (this', cout ++ [:: ErrorReport e]),
        well_shaped r c this'
      & iterations this' = iterations this - 1].
Proof.
move=> Hr Hc [Hrows Hcols [cur Hcur] [tgt Htgt] [rot Hrot]].
have := solve_roundE junk k cout Hr Hc Hrows Hcols Hcur Htgt Hrot.
cbv zeta => ->; eexists; eexists; split; first by [].
  by split=> //=; [eexists | exists tgt | eexists].
by [].
Qed.

Lemma while_S (S : Type) fuel cond (body : nat -> S -> outcome S) k st :
  while_ fuel.+1 cond body k st
  = if cond st then st' <- body k st ;; while_ fuel cond body k.+1 st'
    else Done (k, st).
Proof. by []. Qed.

Lemma solve_loop_ok (junk : storage) r c n :
  (0 < r)%N -> (1 < c)%N ->
  forall fuel k this cout,
    (n < fuel)%N -> well_shaped r c this -> iterations this = n%:Z ->
    exists this' cout',
      [/\ while_ fuel (fun st => 0 < iterations st.1) (solve_round junk) k
            (this, cout)
          = Done ((k + n)%N, (this', cout ++ cout')),
          iterations this' = 0, size cout' = n & all is_report cout'].
Proof.
move=> Hr Hc; elim: n => [|n IH] [//|fuel] k this cout Hf Hw Hit;
  rewrite while_S [iterations _]/= Hit.
  by rewrite ltxx addn0; exists this, [::]; rewrite cats0.
rewrite ltz_nat /=.
have [this1 [e [-> Hw1 Hit1]]] := solve_round_ok junk k cout Hr Hc Hw.
rewrite [bind _ _]/=.
have Hn : iterations this1 = n%:Z.
  by rewrite Hit1 Hit intS addrC addKr.
have [this' [cout' [-> H0 Hsz Hall]]] :=
  IH fuel k.+1 this1 (cout ++ [:: ErrorReport e]) Hf Hw1 Hn.
exists this', (ErrorReport e :: cout'); split=> //=.
- by rewrite addSnnS -catA.
- by rewrite Hsz.
Qed.

End SolveFacts.

(** ** match(): the rows of the returned matrix *)

Section MatchRows.

Context {R : rcfType}.

Implicit Types (this : @ICP R).

Lemma distanceTo_rows r c (A B : 'M[R]_(r, c)) (i j : nat) :
  distanceTo (row_point (Mx A) i) (row_point (Mx B) j)
  = Done (dist (row_point (Mx A) i) (row_point (Mx B) j)).
Proof. by rewrite distanceToE // !size_mkseq. Qed.

Lemma nth_points r c (A : 'M[R]_(r, c)) (i : nat) :
  (i < r)%N -> nth [::] (points A) i = row_point (Mx A) i.
Proof. by move=> Hi; rewrite nth_mkseq. Qed.

Lemma match_rows junk this r c (cur tgt : 'M[R]_(r, c)) :
  (0 < r)%N -> match_entry cur tgt this ->
  exists this' closest,
    [/\ match_ junk this = Done (this', closest),
        rows closest = r /\ cols closest = c
      & forall i, (i < r)%N ->
          row_point closest i
          = (nearest (points cur) (row_point (Mx tgt) i) (zero_point c)).2].
Proof.
move=> Hr [[Hrows Hcols] Hcur Htgt [Hrefs Htars Hcps]].
rewrite (match_E _ Hr Hrows Hcols Hcur Htgt Hrefs Htars Hcps).
eexists; eexists; split; [by [] | by [] |] => i Hi.
have Hsz : size (nth [::] (best_matches cur tgt) i) = c.
  by apply: (@size_best_match _ _ _ cur tgt); rewrite mem_nth // size_mkseq.
have Hbm : nth [::] (best_matches cur tgt) i
           = (nearest (points cur) (nth [::] (points tgt) i) (zero_point c)).2.
  by rewrite /best_matches nth_mkseq.
rewrite -(nth_points tgt Hi) -Hbm.
apply: (@eq_from_nth _ 0); rewrite size_mkseq ?Hsz // => j Hj.
by rewrite nth_mkseq // peek_mk Hi Hj.
Qed.

End MatchRows.


(** ** Loops that stop at a fault; loops that commute with an update *)

Section LoopFaults.

Variables (S : Type).

Lemma forM_cat (I : Type) (s1 s2 : seq I) (body : I -> S -> outcome S) st :
  forM (s1 ++ s2) body st = (st' <- forM s1 body st ;; forM s2 body st').
Proof.
elim: s1 st => [|i s1 IH] st //=.
by case: (body i st) => //= st'.
Qed.

(** The loop runs [m] rounds and faults in the next one. *)
Lemma forM_fault_at (P : nat -> S -> Prop) (body : nat -> S -> outcome S)
    (n m : nat) (st : S) (e : fault) :
  (m < n)%N -> P 0%N st ->
  (forall i s, (i < m)%N -> P i s -> exists2 s', body i s = Done s' & P i.+1 s') ->
  (forall s, P m s -> body m s = Fault e) ->
  forM (iota 0 n) body st = Fault e.
Proof.
move=> Hmn P0 step stop.
rewrite -(subnKC (ltnW Hmn)) iotaD forM_cat add0n.
have [s' -> Ps'] /= : exists2 s', forM (iota 0 m) body st = Done s' & P (0 + m)%N s'.
  by apply: forM_iota_ind => // i s /andP [_ Hi]; apply: step.
have -> : (n - m)%N = (n - m).-1.+1 by rewrite prednK // subn_gt0.
by rewrite /= stop.
Qed.

End LoopFaults.

Lemma forM_comm (I S : Type) (f : S -> S) (body : I -> S -> outcome S)
    (s : seq I) (st : S) :
  (forall i a, body i (f a) = (b <- body i a ;; Done (f b))) ->
  forM s body (f st) = (st' <- forM s body st ;; Done (f st')).
Proof.
move=> Hb; elim: s st => [|i s IH] st //=.
by rewrite Hb; case: (body i st) => //= b.
Qed.

(** ** class Point: reading past the end, and the Euclidean metric *)

Section PointMetric.

Context {R : rcfType}.

Implicit Types (p q s this other : seq R).

Lemma Point_sub_short this other :
  (size this < size other)%N -> Point_sub this other = Fault Undefined.
Proof.
move=> Hs; rewrite /Point_sub prepare_nil.
apply: (@forM_fault_at _ (fun _ p => size p = size other) _ _ (size this)) => //.
- by rewrite size_nseq.
- move=> i p Hi Hp; rewrite (fetch_nth 0) //= (fetch_nth 0) ?(ltn_trans Hi) //=.
  rewrite (store_set_nth 0) ?Hp ?(ltn_trans Hi) //; eexists; first by [].
  by rewrite size_set_nth Hp; apply/maxn_idPr; exact: ltn_trans Hi Hs.
- by move=> p _; rewrite fetch_oob.
Qed.

Lemma sum_sqr_ge0 (I : Type) (r : seq I) (a : I -> R) :
  0 <= \sum_(i <- r) a i ^+ 2.
Proof. by apply: sumr_ge0 => i _; rewrite sqr_ge0. Qed.

(** The Cauchy-Schwarz inequality for finite sums. *)
Lemma sum_Cauchy_Schwarz (I : eqType) (r : seq I) (a b : I -> R) :
  (\sum_(i <- r) a i * b i) ^+ 2
  <= (\sum_(i <- r) a i ^+ 2) * (\sum_(i <- r) b i ^+ 2).
Proof.
set C := \sum_(i <- r) a i * b i.
set A := \sum_(i <- r) a i ^+ 2; set B := \sum_(i <- r) b i ^+ 2.
have HB : 0 <= B by exact: sum_sqr_ge0.
have : 0 <= \sum_(i <- r) (B * a i - C * b i) ^+ 2 by exact: sum_sqr_ge0.
have -> : \sum_(i <- r) (B * a i - C * b i) ^+ 2 = B * (A * B - C ^+ 2).
  have E i : (B * a i - C * b i) ^+ 2
             = B ^+ 2 * a i ^+ 2 - (B * C *+ 2) * (a i * b i)
               + C ^+ 2 * b i ^+ 2 by ring.
  rewrite (eq_bigr _ (fun i _ => E i)).
  rewrite big_split sumrB -!mulr_sumr -/A -/B -/C /=; ring.
move: HB; rewrite le_eqVlt => /orP [/eqP HB0|HBpos]; last first.
  by rewrite pmulr_rge0 // subr_ge0.
move=> _; rewrite -HB0 mulr0.
suff -> : C = 0 by rewrite expr0n.
rewrite /C big_seq big1 // => i Hi.
have : B == 0 by rewrite -HB0.
have Hge j : true -> 0 <= b j ^+ 2 by move=> _; exact: sqr_ge0.
rewrite /B (psumr_eq0 _ Hge) => /allP /(_ _ Hi).
by rewrite /= sqrf_eq0 => /eqP ->; rewrite mulr0.
Qed.

(** The triangle inequality of the Euclidean norm. *)
Lemma sum_Minkowski (I : eqType) (r : seq I) (a b : I -> R) :
  Num.sqrt (\sum_(i <- r) (a i + b i) ^+ 2)
  <= Num.sqrt (\sum_(i <- r) a i ^+ 2) + Num.sqrt (\sum_(i <- r) b i ^+ 2).
Proof.
set A := \sum_(i <- r) a i ^+ 2; set B := \sum_(i <- r) b i ^+ 2.
set C := \sum_(i <- r) a i * b i.
have HA : 0 <= A by exact: sum_sqr_ge0.
have HB : 0 <= B by exact: sum_sqr_ge0.
have -> : \sum_(i <- r) (a i + b i) ^+ 2 = A + C *+ 2 + B.
  rewrite (eq_bigr _ (fun i _ => sqrrD (a i) (b i))).
  by rewrite !big_split /= mulr2n.
have HC : C <= Num.sqrt A * Num.sqrt B.
  rewrite -sqrtrM //; apply: le_trans (ler_norm C) _.
  by rewrite -sqrtr_sqr ler_wsqrtr // sum_Cauchy_Schwarz.
have Hs : 0 <= Num.sqrt A + Num.sqrt B by rewrite addr_ge0 ?sqrtr_ge0.
rewrite -[leRHS]ger0_norm // -sqrtr_sqr ler_wsqrtr //.
rewrite sqrrD !sqr_sqrtr // !lerD2r lerD2l.
by rewrite lerMn2r HC orbT.
Qed.

Lemma dist_sym p q : size p = size q -> dist p q = dist q p.
Proof.
move=> Hs; rewrite /dist Hs; congr Num.sqrt; apply: eq_bigr => i _.
by rewrite -sqrrN opprB.
Qed.

Lemma dist_ge0 p q : 0 <= dist p q.
Proof. exact: sqrtr_ge0. Qed.

Lemma dist_eq0 p q : size p = size q -> (dist p q == 0) = (p == q).
Proof.
move=> Hs; rewrite /dist sqrtr_eq0 le_eqVlt ltNge sum_sqr_ge0 orbF.
apply/eqP/eqP => [H|->]; last first.
  by rewrite big1 // => i _; rewrite subrr expr0n.
apply: (@eq_from_nth _ 0) => // i Hi; apply/eqP; rewrite -subr_eq0 -sqrf_eq0.
have Hge j : true -> 0 <= (nth 0 p j - nth 0 q j) ^+ 2.
  by move=> _; exact: sqr_ge0.
move/eqP: H; rewrite (psumr_eq0 _ Hge) => /allP /(_ i).
by rewrite mem_index_iota /= -Hs Hi; apply.
Qed.

Lemma dist_triangle p q s :
  size p = size q -> size q = size s -> dist p s <= dist p q + dist q s.
Proof.
move=> Hpq Hqs; rewrite /dist -Hqs.
have E i : nth 0 p i - nth 0 s i
           = (nth 0 p i - nth 0 q i) + (nth 0 q i - nth 0 s i).
  by rewrite addrA subrK.
rewrite (eq_bigr _ (fun i _ => congr1 (fun x => x ^+ 2) (E i))).
exact: sum_Minkowski.
Qed.

End PointMetric.

(** ** Centroids of shifted point sets *)

Section Centroids.

Context {R : rcfType}.

Lemma natr_neq0 r : (0 < r)%N -> r%:R != 0 :> R.
Proof. by move=> Hr; rewrite pnatr_eq0 -lt0n. Qed.


Lemma centered_shift r c (A : 'M[R]_(r, c)) (t : 'rV[R]_c) :
  centered (A + \matrix_(i, j) t 0 j) = centered A.
Proof.
apply/matrixP => i j; rewrite !mxE.
have Hr : (0 < r)%N by exact: leq_ltn_trans (leq0n i) (ltn_ord i).
have E (k : 'I_r) : (A + \matrix_(i0, j0) t 0 j0) k j = A k j + t 0 j.
  by rewrite !mxE.
rewrite (eq_bigr _ (fun k _ => E k)).
rewrite big_split /= sumr_const card_ord mulrDl.
rewrite -[t 0 j *+ r]mulr_natr mulfK ?natr_neq0 //.
by rewrite opprD addrACA subrr addr0.
Qed.


End Centroids.

(** ** Operands that do not fit *)

Section ShapeFaults.

Context {R : rcfType} {eigen : EigenSVD R}.

Implicit Types (M v ref target data translation rotation : @MatrixXd R).

Lemma solveForOptimalRotation_fault ref target :
  ~~ same_shape ref target ->
  solveForOptimalRotation ref target = Fault Undefined.
Proof.
move=> Hns; rewrite /solveForOptimalRotation; cbv zeta.
set c1 := getCentroid target; set c2 := getCentroid ref.
set body := fun r (st : MatrixXd * MatrixXd) => _.
pose P (_ : nat) (st : @MatrixXd R * @MatrixXd R) :=
  shape_of st.1 = shape_of ref /\ shape_of st.2 = shape_of target.
have step i st : (i < rows ref)%N -> (i < rows target)%N -> P i st ->
    exists2 st', body i st = Done st' & P i.+1 st'.
  case: st => a b Hr Ht [/= [Har Hac] [Hbr Hbc]]; rewrite /body /row_sub.
  by rewrite Har Hr Hac Hbr Ht Hbc /= !eqxx /=; eexists.
have [Hlt|Hge] := ltnP (rows target) (rows ref).
  have -> // : forM (iota 0 (rows ref)) body (ref, target) = Fault Undefined.
  apply: (@forM_fault_at _ P _ _ (rows target)) => //.
    by move=> i st Hi; apply: step => //; exact: ltn_trans Hi Hlt.
  case=> a b [/= [Har Hac] [Hbr Hbc]]; rewrite /body /row_sub.
  by rewrite Har Hlt Hac Hbr ltnn /= !eqxx.
have [[a b] -> [/= [Har Hac] [Hbr Hbc]]] /= :
    exists2 st', forM (iota 0 (rows ref)) body (ref, target) = Done st'
                 & P (0 + rows ref)%N st'.
  apply: forM_iota_ind => // i st /andP [_ Hi].
  by apply: step => //; exact: leq_trans Hi Hge.
rewrite /mul /= Hbr Har.
have [Hrows|Hrows] := eqVneq (rows target) (rows ref); last by [].
have Hcols : cols target != cols ref.
  by move: Hns; rewrite /same_shape Hrows eqxx /= eq_sym.
by rewrite /= Hac Hbc eq_sym (negbTE Hcols).
Qed.






Lemma Zero_Mx r c : Zero r c = Mx (0 : 'M[R]_(r, c)).
Proof. by rewrite /Zero /mk; congr Mx; apply/matrixP => i j; rewrite !mxE. Qed.

End ShapeFaults.

(** ** Sums of row norms *)

Section RowNorms.

Context {R : rcfType}.

Lemma sum_row_norms_ge0 r c (D : 'M[R]_(r, c)) : 0 <= sum_row_norms D.
Proof. by apply: sumr_ge0 => i _; rewrite sqrtr_ge0. Qed.

Lemma sum_row_norms_opp r c (D : 'M[R]_(r, c)) :
  sum_row_norms (- D) = sum_row_norms D.
Proof.
apply: eq_bigr => i _; congr Num.sqrt; apply: eq_bigr => j _.
by rewrite mxE sqrrN.
Qed.

Lemma sum_row_norms_eq0 r c (D : 'M[R]_(r, c)) :
  (sum_row_norms D == 0) = (D == 0).
Proof.
have Hge (i : 'I_r) : true -> 0 <= Num.sqrt (\sum_(j < c) D i j ^+ 2).
  by move=> _; rewrite sqrtr_ge0.
have Hsq (i : 'I_r) (j : 'I_c) : true -> 0 <= D i j ^+ 2.
  by move=> _; exact: sqr_ge0.
rewrite /sum_row_norms (psumr_eq0 _ Hge).
apply/allP/eqP => [H|-> i _ /=]; last first.
  by rewrite big1 ?sqrtr0 // => j _; rewrite mxE expr0n.
apply/matrixP => i j; rewrite mxE.
have := H i (mem_index_enum i).
rewrite /= sqrtr_eq0 le_eqVlt ltNge sum_sqr_ge0 orbF.
rewrite (psumr_eq0 _ (Hsq i)) => /allP /(_ j (mem_index_enum j)) /=.
by rewrite sqrf_eq0 => /eqP.
Qed.

Lemma sum_row_norms_triangle r c (D E : 'M[R]_(r, c)) :
  sum_row_norms (D + E) <= sum_row_norms D + sum_row_norms E.
Proof.
rewrite /sum_row_norms -big_split /=; apply: ler_sum => i _.
have Eq (j : 'I_c) : (D + E) i j ^+ 2 = (D i j + E i j) ^+ 2 by rewrite mxE.
rewrite (eq_bigr _ (fun j _ => Eq j)).
exact: (sum_Minkowski (index_enum 'I_c) (D i) (E i)).
Qed.

End RowNorms.

(** ** The constant PI *)

Section Angles.

Context {R : rcfType}.

Lemma decimal_gt0 (d : nat) (ds : seq nat) : (0 < d)%N -> 0 < decimal (d :: ds) :> R.
Proof.
move=> Hd; rewrite /decimal /= mul0r add0r.
have : 0 < d%:R :> R by rewrite ltr0n.
elim: ds d%:R => [|e ds IH] acc Hacc //=.
by apply: IH; rewrite ltr_wpDr ?ler0n // mulr_gt0 // ltr0n.
Qed.

Lemma PI_gt0 : 0 < PI :> R.
Proof. by rewrite /PI divr_gt0 ?decimal_gt0 // exprn_gt0 // ltr0n. Qed.

End Angles.

(** ** solve(): exits, faults, and what a round reports *)

Section Runs.

Context {R : rcfType} {libm : MathLib R} {eigen : EigenSVD R}.

Implicit Types (this : @ICP R) (cur tgt reference target : @MatrixXd R).

Local Arguments solve_round : simpl never.

Lemma while_exit (S : Type) fuel cond (body : nat -> S -> outcome S)
    k st k' st' :
  while_ fuel cond body k st = Done (k', st') -> ~~ cond st'.
Proof.
elim: fuel k st => [//|fuel IH] k st /=.
case: ifPn => [_|Hc]; last by case=> _ <-.
by case: (body k st) => //= a; exact: IH.
Qed.

Lemma match_on_empty junk this :
  rows (mRef this) = 0%N -> refPoints this = [::] ->
  closestPoints this = [::] -> match_ junk this = Fault OutOfRange.
Proof. by move=> Hrows Hrefs Hcps; rewrite /match_ Hrows /= Hrefs /= Hcps. Qed.

(** match() on a target that has at least the rows and the columns of the
    reference: the result has the shape of the reference. *)
Lemma match_shape junk this r c :
  (0 < r)%N ->
  rows (mRef this) = r -> cols (mRef this) = c ->
  shape_of (curRef this) = (r, c) ->
  (r <= rows (mTarget this))%N -> (c <= cols (mTarget this))%N ->
  refPoints this = [::] -> tarPoints this = [::] ->
  closestPoints this = [::] ->
  exists this' closest,
    match_ junk this = Done (this', closest) /\ shape_of closest = (r, c).
Proof.
move=> Hr0 Hr Hc [Hcr Hcc] Htr Htc Hrefs Htars Hcps.
rewrite /match_; cbv zeta; rewrite Hr Hc.
rewrite points_loop ?Hcr ?Hcc //=.
rewrite Hrefs Htars /= size_mkseq.
set refs := mkseq _ r; set tars := mkseq _ r.
set this1 := set_refPoints _ _.
have Hsr p : p \in refs -> size p = c by case/mapP => i _ ->; rewrite size_mkseq.
have Hst p : p \in tars -> size p = c by case/mapP => i _ ->; rewrite size_mkseq.
rewrite (@search_loop _ this1 r c) /= ?size_mkseq //.
rewrite Hcps /=; set cps := mkseq _ r.
have Hsz : size cps = r by rewrite size_mkseq.
have Hsc p : p \in cps -> size p = c.
  case/mapP => i _ ->.
  have := nearest_mem refs (nth [::] tars i) (zero_point c).
  by rewrite inE => /orP [/eqP ->|/Hsr //]; rewrite size_nseq.
rewrite (fetch_nth [::]) ?Hsz //= ?Hsz (Hsc (nth [::] cps 0)) ?mem_nth ?Hsz //.
by rewrite (closest_loop _ Hsz Hsc) /=; eexists; eexists.
Qed.

(** The loop that fills the two points of one row stops at the first
    coordinate the target does not have. *)
Lemma row_points_fault cur tgt r0 c m :
  (r0 < rows cur)%N -> (c <= cols cur)%N -> (m < c)%N ->
  (forall c0, (c0 < m)%N -> (r0 < rows tgt)%N && (c0 < cols tgt)%N) ->
  ~~ ((r0 < rows tgt)%N && (m < cols tgt)%N) ->
  forM (iota 0 c)
    (fun c0 '(ref, tar) =>
       x <- coeff cur r0 c0 ;;
       ref <- setValue x c0 ref ;;
       y <- coeff tgt r0 c0 ;;
       tar <- setValue y c0 tar ;;
       Done (ref, tar))
    (prepare c [::], prepare c [::])
  = Fault Undefined.
Proof.
move=> Hr Hc Hm Hok Hbad; rewrite !prepare_nil.
pose P (_ : nat) (st : seq R * seq R) := size st.1 = c /\ size st.2 = c.
apply: (@forM_fault_at _ P _ _ m) => //.
- by split; rewrite size_nseq.
- move=> i [ref tar] Hi [/= Hsr Hst].
  have Hic : (i < c)%N := ltn_trans Hi Hm.
  rewrite coeff_in ?(leq_trans Hic) //= /setValue (store_set_nth 0) ?Hsr //=.
  rewrite /coeff (Hok i Hi) /= (store_set_nth 0) ?Hst //=.
  by eexists; first by []; split; rewrite /= size_set_nth ?Hsr ?Hst;
    apply/maxn_idPr.
- case=> ref tar [/= Hsr Hst].
  rewrite coeff_in ?(leq_trans Hm) //= /setValue (store_set_nth 0) ?Hsr //=.
  by rewrite /coeff (negbTE Hbad).
Qed.

(** The first loop of match() stops at the first entry the target does
    not have. *)
Lemma points_fault this r c :
  (0 < r)%N -> (0 < c)%N ->
  (r <= rows (curRef this))%N -> (c <= cols (curRef this))%N ->
  ~~ ((r <= rows (mTarget this))%N && (c <= cols (mTarget this))%N) ->
  forM (iota 0 r)
    (fun r0 this =>
       let ref := prepare c [::] in
       let tar := prepare c [::] in
       ' (ref, tar) <-
         forM (iota 0 c)
           (fun c0 '(ref, tar) =>
              x <- coeff (curRef this) r0 c0 ;;
              ref <- setValue x c0 ref ;;
              y <- coeff (mTarget this) r0 c0 ;;
              tar <- setValue y c0 tar ;;
              Done (ref, tar))
           (ref, tar) ;;
       let this := set_tarPoints (rcons (tarPoints this) tar) this in
       Done (set_refPoints (rcons (refPoints this) ref) this))
    this
  = Fault Undefined.
Proof.
move=> Hr0 Hc0 Hrc Hcc Hbad.
pose P (_ : nat) (s : @ICP R) :=
  curRef s = curRef this /\ mTarget s = mTarget this.
have [Hct|Hct] := leqP c (cols (mTarget this)).
  (* the target has the columns, but fewer rows *)
  have Hrt : (rows (mTarget this) < r)%N.
    by move: Hbad; rewrite Hct andbT -ltnNge.
  apply: (@forM_fault_at _ P _ _ (rows (mTarget this))) => //.
    move=> i s Hi [Hcur Htgt]; cbv zeta; rewrite Hcur Htgt.
    have Hir : (i < rows (curRef this))%N.
      exact: leq_trans (ltn_trans Hi Hrt) Hrc.
    by rewrite (row_points_loop Hir Hcc Hi Hct) /=; eexists.
  move=> s [Hcur Htgt]; cbv zeta; rewrite Hcur Htgt.
  have Hir : (rows (mTarget this) < rows (curRef this))%N.
    exact: leq_trans Hrt Hrc.
  rewrite (@row_points_fault _ _ _ _ 0 Hir Hcc Hc0) //.
  by rewrite ltnn.
(* the target lacks a column: the first row faults *)
apply: (@forM_fault_at _ P _ _ 0) => //.
move=> s [Hcur Htgt]; cbv zeta; rewrite Hcur Htgt.
pose m := if (0 < rows (mTarget this))%N then cols (mTarget this) else 0%N.
have Hm : (m < c)%N by rewrite /m; case: ifP.
have Hok c0 : (c0 < m)%N ->
    (0 < rows (mTarget this))%N && (c0 < cols (mTarget this))%N.
  by rewrite /m; case: ifP => // _ ->.
have Hno : ~~ ((0 < rows (mTarget this))%N && (m < cols (mTarget this))%N).
  by rewrite /m; case: ifP => _ //; rewrite ltnn.
by rewrite (row_points_fault (leq_trans Hr0 Hrc) Hcc Hm Hok Hno).
Qed.

(** solve() on an empty reference set: the first round ends in match(),
    at [closestPoints.at(0)]. *)
Lemma solve_empty_fault (fuel : nat) (junk : storage)
    reference target (set : ICPSettings) :
  rows reference = 0%N -> 0 < maxIterations set ->
  solve fuel.+1 junk (ICP_new reference target set) = Fault OutOfRange.
Proof.
move=> Hr Hn; rewrite /solve while_S [iterations _]/= Hn /solve_round.
by rewrite match_on_empty.
Qed.

(** solve() on a target of another shape than the reference: match()
    reads an entry the target does not have, or solveForOptimalRotation
    gets operands that do not fit. *)
Lemma solve_mismatch_fault (fuel : nat) (junk : storage)
    reference target (set : ICPSettings) :
  (0 < rows reference)%N -> (0 < cols reference)%N ->
  ~~ same_shape reference target -> 0 < maxIterations set ->
  solve fuel.+1 junk (ICP_new reference target set) = Fault Undefined.
Proof.
move=> Hr Hc Hns Hn; rewrite /solve while_S [iterations _]/= Hn.
rewrite /solve_round; set this2 := set_lastRotation _ _.
have [Hfit|Hbad] :=
  boolP ((rows reference <= rows target)%N && (cols reference <= cols target)%N).
  case/andP: Hfit => Hrt Hct.
  have [this' [closest [E [Hcr Hcc]]]] :=
    @match_shape (junk (3 * 0)%N) this2 (rows reference) (cols reference)
      Hr erefl erefl erefl Hrt Hct erefl erefl erefl.
  rewrite E /=.
  have [[_ Htgt _ _] _ _ _ _] := match_frame E.
  rewrite Htgt [mTarget this2]/= solveForOptimalRotation_fault //.
  by rewrite /same_shape Hcr Hcc.
rewrite /match_; cbv zeta.
by rewrite points_fault.
Qed.

Lemma solve_round_reported (junk : storage) k this cout r c :
  (0 < r)%N -> (1 < c)%N -> well_shaped r c this ->
  exists this' cout',
    [/\ solve_round junk k (this, cout) = Done (this', cout'),
        well_shaped r c this',
        iterations this' = iterations this - 1
      & reported r c this' cout'].
Proof.
move=> Hr Hc [Hrows Hcols [cur Hcur] [tgt Htgt] [rot Hrot]].
have := solve_roundE junk k cout Hr Hc Hrows Hcols Hcur Htgt Hrot.
cbv zeta => ->; eexists; eexists; split; first by [].
- by split=> //=; [eexists | exists tgt | eexists].
- by [].
- do 4![eexists]; split; rewrite /= ?Htgt; try by [].
  by eexists; rewrite cats1.
Qed.

Lemma solve_loop_reported (junk : storage) r c n :
  (0 < r)%N -> (1 < c)%N ->
  forall fuel k this cout,
    (n < fuel)%N -> well_shaped r c this -> reported r c this cout ->
    iterations this = n%:Z ->
    exists this' cout',
      while_ fuel (fun st => 0 < iterations st.1) (solve_round junk) k
        (this, cout)
      = Done ((k + n)%N, (this', cout'))
      /\ reported r c this' cout'.
Proof.
move=> Hr Hc; elim: n => [|n IH] [//|fuel] k this cout Hf Hw Hrep Hit;
  rewrite while_S [iterations _]/= Hit.
  by rewrite ltxx addn0; exists this, cout.
rewrite ltz_nat /=.
have [this1 [cout1 [-> Hw1 Hit1 Hrep1]]] :=
  solve_round_reported junk k cout Hr Hc Hw.
rewrite [bind _ _]/=.
have Hn : iterations this1 = n%:Z by rewrite Hit1 Hit intS addrC addKr.
have [this' [cout' [-> Hrep']]] := IH fuel k.+1 this1 cout1 Hf Hw1 Hrep1 Hn.
by exists this', cout'; rewrite addSnnS.
Qed.

Lemma match_with_transform junk t l r lr this :
  match_ junk (with_transform t l r lr this)
  = (' (this', closest) <- match_ junk this ;;
     Done (with_transform t l r lr this', closest)).
Proof.
rewrite /match_; cbv zeta.
rewrite [rows (mRef _)]/= [cols (mRef _)]/=.
rewrite (forM_comm (f := with_transform t l r lr)).
  move=> i a /=; case: (forM _ _ _) => //= -[ref tar].
  by [].
case: (forM _ _ this) => //= this1.
rewrite (forM_comm (f := with_transform t l r lr)).
  move=> i a /=; case: (fetch _ _ _) => //= tar.
  case: (fetch _ _ _) => //= ref0.
  by case: (linear_search _ _ _ _) => //= -[bd best].
case: (forM _ _ this1) => //= this2.
case: (fetch _ _ _) => //= p0.
by case: (forM _ _ _).
Qed.

End Runs.


(** * The properties of the specification *)

(** ** Facts about the concrete inputs *)

Lemma row_far_reference :
  row_point (Mx far_reference) 0 = [:: million; 0].
Proof.
rewrite /row_point /= /mkseq /=.
by rewrite (peek_ord far_reference ord0 ord0)
  (peek_ord far_reference ord0 (lift ord0 ord0)) !mxE.
Qed.

Lemma row_origin_target : row_point (Mx origin_target) 0 = [:: 0; 0].
Proof.
rewrite /row_point /= /mkseq /=.
by rewrite (peek_ord origin_target ord0 ord0)
  (peek_ord origin_target ord0 (lift ord0 ord0)) !mxE.
Qed.

Lemma far_reference_distance :
  distanceTo (row_point (Mx origin_target) 0) (row_point (Mx far_reference) 0)
  = Done million.
Proof.
rewrite distanceTo_rows row_far_reference row_origin_target /dist /=.
rewrite big_mkord big_ord_recl big_ord1 /= subrr expr0n /= addr0 sub0r sqrrN.
by rewrite sqrtr_sqr ger0_norm // ltW // million_gt0.
Qed.

Lemma origin_distance :
  distanceTo (row_point (Mx origin_target) 0) (row_point (Mx origin_target) 0)
  = Done 0.
Proof.
rewrite distanceTo_rows row_origin_target /dist /=.
by rewrite big_mkord big_ord_recl big_ord1 /= subrr expr0n /= addr0 sqrtr0.
Qed.

Lemma far_entry :
  match_entry far_reference origin_target
    (ICP_new (Mx far_reference) (Mx origin_target) one_round).
Proof. by []. Qed.

Lemma origin_entry :
  match_entry origin_target origin_target
    (ICP_new (Mx origin_target) (Mx origin_target) one_round).
Proof. by []. Qed.

Lemma solve_entry_well_shaped {R : rcfType} r c
    (reference target : 'M[R]_(r, c)) (set : ICPSettings) :
  well_shaped r c
    (set_transform (Zero c 1)
       (set_rotation (Identity c c)
          (ICP_new (Mx reference) (Mx target) set))).
Proof.
split=> //; [by exists reference | by exists target |].
by rewrite /= Identity_Mx; exists 1%:M.
Qed.

Lemma unit_shift_nonzero : Mx unit_shift <> Mx (0 : 'M[algR]_(1, 2)).
Proof.
move/Mx_inj/matrixP/(_ ord0 ord0); rewrite !mxE => /eqP.
by rewrite oner_eq0.
Qed.

(** ** C1 and C10: the nearest-neighbour search of match() *)

(** C1, evaluated where it fails.  The target is the single point (0, 0)
    and the working reference the single point (1000000, 0), at distance
    exactly 1000000.  The only reference point is the nearest one, yet
    match() returns the row (0, 0): the zero-filled initial candidate,
    which [dist < bestDistance] never replaces. *)
Theorem match_misses_far_reference :
  exists this' closest,
    [/\ match_ clean_storage
          (ICP_new (Mx far_reference) (Mx origin_target) one_round)
        = Done (this', closest),
        row_point closest 0 = [:: 0; 0],
        row_point (Mx far_reference) 0 = [:: million; 0],
        distanceTo (row_point (Mx origin_target) 0)
          (row_point (Mx far_reference) 0) = Done million
      & [:: million; 0] != [:: 0; 0] :> seq algR].
Proof.
have [this' [closest [Hm _ Hrow]]] :=
  match_rows clean_storage (ltn0Sn 0) far_entry.
exists this', closest; split=> //.
- rewrite Hrow // nearest_far // => ref.
  rewrite /points /mkseq /= inE => /eqP ->.
  by have := far_reference_distance; rewrite distanceTo_rows => -[->].
- exact: row_far_reference.
- exact: far_reference_distance.
- by rewrite eqseq_cons negb_and gt_eqF // million_gt0.
Qed.

(** C10: the search starts from the distance 1000000.0 and a zero-filled
    point, so a target point at distance at least 1000000.0 from every
    point of the working reference gets the all-zeros row in the returned
    matrix. *)
Theorem match_far_candidate_is_zero {R : rcfType} junk (this : @ICP R) r c
    (cur tgt : 'M[R]_(r, c)) (i : nat) :
  (i < r)%N -> match_entry cur tgt this ->
  (forall j, (j < r)%N ->
     exists2 d,
       distanceTo (row_point (Mx tgt) i) (row_point (Mx cur) j) = Done d
       & decimal [:: 1; 0; 0; 0; 0; 0; 0] <= d) ->
  exists this' closest,
    [/\ match_ junk this = Done (this', closest),
        rows closest = r /\ cols closest = c
      & row_point closest i = nseq c 0].
Proof.
move=> Hi Hentry Hfar.
have Hr : (0 < r)%N := leq_ltn_trans (leq0n i) Hi.
have [this' [closest [Hm Hshape Hrow]]] := match_rows junk Hr Hentry.
exists this', closest; split=> //.
rewrite Hrow // nearest_far // => ref /mapP [j].
rewrite mem_iota add0n /= => Hj ->.
by have [d] := Hfar j Hj; rewrite distanceTo_rows => -[<-].
Qed.

Lemma match_far_candidate_is_zero_witness :
  exists this' closest,
    [/\ match_ clean_storage
          (ICP_new (Mx far_reference) (Mx origin_target) one_round)
        = Done (this', closest),
        rows closest = 1%N /\ cols closest = 2%N
      & row_point closest 0 = nseq 2 0].
Proof.
apply: (@match_far_candidate_is_zero _ clean_storage _ 1 2 far_reference
          origin_target 0 (ltn0Sn 0) far_entry).
case=> // _; exists million; last exact: lexx.
exact: far_reference_distance.
Defined.

(** X1: in a round over point sets of one shape, for a target point that
    has some point of the working reference at distance below 1000000.0,
    the row of the matrix match() returns is the point of the working
    reference at minimal distance from it, the first such point in row
    order; the returned matrix has the shape of the target. *)
Theorem match_nearest_within_bound {R : rcfType} junk (this : @ICP R) r c
    (cur tgt : 'M[R]_(r, c)) (i : nat) :
  (i < r)%N -> match_entry cur tgt this ->
  (exists j d, [/\ (j < r)%N,
      distanceTo (row_point (Mx tgt) i) (row_point (Mx cur) j) = Done d
    & d < decimal [:: 1; 0; 0; 0; 0; 0; 0]]) ->
  exists this' closest j,
    [/\ match_ junk this = Done (this', closest),
        rows closest = r /\ cols closest = c,
        (j < r)%N /\ row_point closest i = row_point (Mx cur) j,
        forall k, (k < r)%N ->
          dist (row_point (Mx tgt) i) (row_point (Mx cur) j)
          <= dist (row_point (Mx tgt) i) (row_point (Mx cur) k)
      & forall k, (k < j)%N ->
          dist (row_point (Mx tgt) i) (row_point (Mx cur) j)
          < dist (row_point (Mx tgt) i) (row_point (Mx cur) k)].
Proof.
move=> Hi Hentry [j0 [d [Hj0 Hd Hlt]]].
have Hr : (0 < r)%N := leq_ltn_trans (leq0n i) Hi.
have [this' [closest [Hm Hshape Hrow]]] := match_rows junk Hr Hentry.
have [|j [Hj Hn Hmin Hfirst]] :=
  @nearest_min _ (points cur) (row_point (Mx tgt) i) (zero_point c).
  exists (row_point (Mx cur) j0).
    by rewrite -(nth_points cur Hj0) mem_nth ?size_points.
  by move: Hd; rewrite distanceTo_rows => -[->].
rewrite size_points in Hj Hmin.
exists this', closest, j; split=> //.
- by rewrite Hrow // Hn /= nth_points.
- by move=> k Hk; have := Hmin k Hk; rewrite !nth_points.
- move=> k Hk; have := Hfirst k Hk.
  by rewrite !nth_points // (ltn_trans Hk Hj).
Qed.

Lemma match_nearest_within_bound_witness :
  exists this' closest j,
    [/\ match_ clean_storage
          (ICP_new (Mx origin_target) (Mx origin_target) one_round)
        = Done (this', closest),
        rows closest = 1%N /\ cols closest = 2%N,
        (j < 1)%N /\ row_point closest 0 = row_point (Mx origin_target) j,
        forall k, (k < 1)%N ->
          dist (row_point (Mx origin_target) 0) (row_point (Mx origin_target) j)
          <= dist (row_point (Mx origin_target) 0)
               (row_point (Mx origin_target) k)
      & forall k, (k < j)%N ->
          dist (row_point (Mx origin_target) 0) (row_point (Mx origin_target) j)
          < dist (row_point (Mx origin_target) 0)
              (row_point (Mx origin_target) k)].
Proof.
apply: (@match_nearest_within_bound _ clean_storage _ 1 2 origin_target
          origin_target 0 (ltn0Sn 0) origin_entry).
exists 0%N, 0; split=> //; first exact: origin_distance.
exact: million_gt0.
Defined.

(** ** C2: the rotation returned by solveForOptimalRotation *)

(** C2: for a reference and a target matrix of one shape, when the factors
    U and V that the decomposition returns for their covariance matrix are
    orthogonal, solveForOptimalRotation returns a matrix of determinant 1
    with orthonormal rows and columns; it is V * U^T, with the last row
    negated when det (V * U^T) < 0. *)
Theorem solveForOptimalRotation_proper {R : rcfType} {eigen : EigenSVD R}
    r c (ref target : 'M[R]_(r, c)) :
  let U := (JacobiSVD (kabsch_cov ref target)).1 in
  let V := (JacobiSVD (kabsch_cov ref target)).2 in
  U^T *m U = 1%:M -> V^T *m V = 1%:M ->
  exists rot,
    [/\ solveForOptimalRotation (Mx ref) (Mx target) = Done rot,
        is_proper_rotation c rot
      & rot = Mx (if \det (V *m U^T) < 0 then negate_last_row (V *m U^T)
                  else V *m U^T)].
Proof.
move=> U V HU HV; have [Hdet Hl Hr] := proper_rotationP HU HV.
exists (Mx (proper_rotation (V *m U^T))); split=> //.
  exact: solveForOptimalRotation_Mx.
by split;
  rewrite ?determinant_Mx ?transpose_Mx ?mul_Mx ?Identity_Mx ?Hdet ?Hl ?Hr.
Qed.

Lemma solveForOptimalRotation_proper_witness :
  exists rot,
    [/\ @solveForOptimalRotation algR identity_svd
          (Mx far_reference) (Mx origin_target) = Done rot,
        is_proper_rotation 2 rot
      & rot = Mx (if \det ((1%:M : 'M[algR]_2) *m 1%:M^T) < 0
                  then negate_last_row ((1%:M : 'M[algR]_2) *m 1%:M^T)
                  else (1%:M : 'M[algR]_2) *m 1%:M^T)].
Proof.
apply: (@solveForOptimalRotation_proper algR identity_svd 1 2
          far_reference origin_target).
- by rewrite /= trmx1 mulmx1.
- by rewrite /= trmx1 mulmx1.
Defined.

(** ** C3: the accumulated rotation is composed by angle *)

(** C3: in a round of solve() that completes, the angle
    asin(R[1,0]) * 180 / PI is taken from the rotation accumulated so far
    and from the rotation solved in this round (for the matrix match()
    returned and the target), the two angles are added, and the new
    accumulated rotation is a square matrix of the same size whose entries
    [0,0], [0,1], [1,0], [1,1] are cos, -sin, sin, cos of the sum (in
    radians by PI / 180): no matrix product is involved. *)
Theorem angle_composition {R : rcfType} {libm : MathLib R}
    {eigen : EigenSVD R} (junk : storage) k (this this' : @ICP R)
    (cout cout' : seq message) :
  solve_round junk k (this, cout) = Done (this', cout') ->
  exists this1 closest newRot x y,
    [/\ match_ (junk (3 * k)%N) (begin_round this) = Done (this1, closest),
        solveForOptimalRotation closest (mTarget this) = Done newRot,
        coeff (rotation this) 1 0 = Done x,
        coeff newRot 1 0 = Done y
      & rotation_by (rotation this') (rows (rotation this))
          (asin x * 180%:R / PI + asin y * 180%:R / PI)].
Proof.
rewrite /solve_round -/(begin_round this).
case E: (match_ _ _) => [[this1 closest]|//|//] /=.
have [[_ Htgt _ _] _ _ [_ Hlast] _] := match_frame E.
case Erot: (solveForOptimalRotation _ _) => [newRot|//|//] /=.
case: (solveForOptimalTranslation _ _ _) => //= newTrans.
case Ela: (rotMatrixToDegrees _) => [lastAngle|//|//] /=.
case Ea: (rotMatrixToDegrees _) => [angle|//|//] /=.
case Em: (angleToRotMatrix _ _ _) => [rot|//|//] /=.
case: (applyTransformation _ _ _ _) => //= newRef.
case: (RMSE _ _) => //= -[error printed] [<- _] /=.
move: Erot Ela Em; rewrite Htgt Hlast /= => Erot Ela Em.
have [x Hx Hlx] := rotMatrixToDegrees_Done Ela.
have [y Hy Hay] := rotMatrixToDegrees_Done Ea.
have [Hrot H00 H01 H10 H11] := angleToRotMatrix_Done Em.
exists this1, closest, newRot, x, y; split=> //.
by rewrite -Hlx -Hay; split=> //; rewrite Hrot.
Qed.

Lemma angle_composition_witness :
  exists this' cout',
    @solve_round algR origin_math identity_svd clean_run 0
      (first_round_entry, [::]) = Done (this', cout')
    /\ exists this1 closest newRot x y,
         [/\ match_ (clean_run (3 * 0)%N) (begin_round first_round_entry)
             = Done (this1, closest),
             @solveForOptimalRotation algR identity_svd closest
               (mTarget first_round_entry) = Done newRot,
             coeff (rotation first_round_entry) 1 0 = Done x,
             coeff newRot 1 0 = Done y
           & @rotation_by algR origin_math (rotation this')
               (rows (rotation first_round_entry))
               (@asin _ origin_math x * 180%:R / PI
                + @asin _ origin_math y * 180%:R / PI)].
Proof.
have [this' [e [Hs _ _]]] :=
  @solve_round_ok algR origin_math identity_svd clean_run 0
    first_round_entry [::] 1 2 isT isT
    (solve_entry_well_shaped far_reference origin_target one_round).
exists this', ([::] ++ [:: ErrorReport e]); split; first exact: Hs.
exact: (@angle_composition algR origin_math identity_svd _ _ _ _ _ _ Hs).
Defined.

(** ** C4 and C7: applyTransformation *)

(** C4, evaluated where it fails.  The data is the single point (0, 0),
    the translation the 1 x 2 matrix (1, 1), of the shape of the data, and
    the rotation the identity.  The specification gives
    (data + translation) * rotation = (1, 1).  The code enters neither
    broadcast branch and never assigns [trans]: it returns
    (data + storage) * rotation, here (0, 0) with zeroed storage, whatever
    the translation. *)
Theorem applyTransformation_ignores_same_shape_translation :
  [/\ applyTransformation clean_storage (Mx origin_target) (Mx unit_shift)
        (Mx no_rotation) = Done (Mx (0 : 'M[algR]_(1, 2))),
      (s <- add (Mx origin_target) (Mx unit_shift) ;; mul s (Mx no_rotation))
      = Done (Mx unit_shift)
    & Mx unit_shift <> Mx (0 : 'M[algR]_(1, 2))].
Proof.
split; last exact: unit_shift_nonzero.
  rewrite applyTransformation_same_shape_Mx mulmx1 /origin_target add0r.
  by congr (Done (Mx _)); apply/matrixP => i j; rewrite !mxE.
by rewrite add_Mx /= mul_Mx mulmx1 /origin_target add0r.
Qed.

(** C7, evaluated where it fails.  The data is the single point (0, 0) and
    the rotation the identity.  The column vector (1, 1) is broadcast and
    gives (1, 1); the row vector (1, 1) has the shape of the one-row data,
    so [trans] is never assigned and the result is (0, 0) with zeroed
    storage. *)
Theorem applyTransformation_row_vector_on_one_row :
  [/\ applyTransformation clean_storage (Mx origin_target)
        (Mx unit_shift_column) (Mx no_rotation) = Done (Mx unit_shift),
      applyTransformation clean_storage (Mx origin_target)
        (Mx unit_shift) (Mx no_rotation) = Done (Mx (0 : 'M[algR]_(1, 2)))
    & Mx unit_shift <> Mx (0 : 'M[algR]_(1, 2))].
Proof.
split; last exact: unit_shift_nonzero.
  rewrite applyTransformation_column_Mx // mulmx1 /origin_target add0r.
  by congr (Done (Mx _)); apply/matrixP => i j; rewrite !mxE.
rewrite applyTransformation_same_shape_Mx mulmx1 /origin_target add0r.
by congr (Done (Mx _)); apply/matrixP => i j; rewrite !mxE.
Qed.

(** X2: on data with any number of rows but one, a column vector of
    [cols] entries and the row vector of the same entries are broadcast to
    the same matrix: both calls return (data + T) * rotation, where column
    [j] of T is constantly entry [j] of the vector, whatever the storage
    holds. *)
Theorem applyTransformation_broadcasts_vectors {R : rcfType}
    (junk junk' : nat -> nat -> R) r c p (data : 'M[R]_(r, c))
    (translation : 'cV[R]_c) (rotation : 'M[R]_(c, p)) :
  r != 1%N ->
  applyTransformation junk (Mx data) (Mx translation) (Mx rotation)
  = Done (Mx ((data + \matrix_(i, j) translation j 0) *m rotation))
  /\ applyTransformation junk' (Mx data) (Mx translation^T) (Mx rotation)
     = Done (Mx ((data + \matrix_(i, j) translation j 0) *m rotation)).
Proof.
move=> Hr; rewrite applyTransformation_column_Mx ?Hr //.
rewrite applyTransformation_row_Mx //; split=> //.
congr (Done (Mx ((_ + _) *m _))).
by apply/matrixP => i j; rewrite !mxE.
Qed.

Lemma applyTransformation_broadcasts_vectors_witness :
  applyTransformation clean_storage (Mx (0 : 'M[algR]_(2, 2)))
    (Mx unit_shift_column) (Mx no_rotation)
  = Done (Mx (((0 : 'M[algR]_(2, 2))
               + \matrix_(i, j) unit_shift_column j 0) *m no_rotation))
  /\ applyTransformation clean_storage (Mx (0 : 'M[algR]_(2, 2)))
       (Mx unit_shift_column^T) (Mx no_rotation)
     = Done (Mx (((0 : 'M[algR]_(2, 2))
                  + \matrix_(i, j) unit_shift_column j 0) *m no_rotation)).
Proof.
by apply: (@applyTransformation_broadcasts_vectors algR clean_storage
             clean_storage 2 2 2 0 unit_shift_column no_rotation).
Defined.

(** ** C5 and C6: RMSE *)

(** C5: for two matrices of one shape, RMSE returns the sum over the rows
    of the square root of the sum of the squared entries of the row of the
    difference, and prints nothing. *)
Theorem RMSE_sum_of_row_norms {R : rcfType} r c (a b : 'M[R]_(r, c)) :
  RMSE (Mx a) (Mx b)
  = Done (\sum_(i < r) Num.sqrt (\sum_(j < c) (a i j - b i j) ^+ 2), [::]).
Proof.
rewrite RMSE_Mx; congr (Done (_, _)); apply: eq_bigr => i _.
by congr Num.sqrt; apply: eq_bigr => j _; rewrite !mxE.
Qed.



(** X3: the size-mismatch line is printed in no other case, and it is all
    RMSE ever prints: a call that returns has printed that line when the
    element counts differ and nothing when they agree. *)
Theorem RMSE_prints_only_on_mismatch {R : rcfType} (a b : @MatrixXd R)
    (v : R) (printed : seq message) :
  RMSE a b = Done (v, printed) ->
  printed = if msize a != msize b then [:: SizeMismatch] else [::].
Proof.
rewrite /RMSE; case: ifP => _; first by case=> _ <-.
case: (sub a b) => //= result; case: (forM _ _ _) => //= squares.
case: (forM _ _ _) => //= sumSqrs; case: (forM _ _ _) => //= sqrts.
by case: (forM _ _ _) => //= rmse [_ <-].
Qed.

Lemma RMSE_prints_only_on_mismatch_witness :
  @RMSE algR (Mx origin_target) (Mx far_reference)
  = Done (sum_row_norms (origin_target - far_reference), [::])
  /\ [::] = (if @msize algR (Mx origin_target) != msize (Mx far_reference)
             then [:: SizeMismatch] else [::]) :> seq (@message algR).
Proof.
split; first exact: RMSE_Mx.
exact: (@RMSE_prints_only_on_mismatch algR _ _ _ _
          (RMSE_Mx origin_target far_reference)).
Defined.

(** ** C8 and C9: the loop of solve() *)

(** C8, where it fails: on two empty point sets and maxIterations = 2,
    solve() does not run two rounds: the first round ends in match(), where
    [closestPoints.at(0)] throws std::out_of_range. *)
Lemma solve_throws_on_empty_sets :
  @solve algR origin_math identity_svd 3 clean_run (empty_sets two_rounds)
  = Fault OutOfRange.
Proof. by rewrite /solve while_S. Qed.

(** C8, as amended: for reference and target point sets of one shape (at
    least one point, at least two coordinates) and maxIterations = n > 0,
    solve() returns after running the body of its loop exactly n times: the
    counter, lowered by one in each round, ends at maxIterations - n = 0,
    and the console holds n lines, one error report per round.  The error
    enters no test: this holds for all point sets, all collaborators and
    all storage contents.  (Fuel above n is enough.) *)
Theorem solve_runs_maxIterations_rounds {R : rcfType} {libm : MathLib R}
    {eigen : EigenSVD R} (junk : storage) r c (reference target : 'M[R]_(r, c))
    (set : ICPSettings) (n fuel : nat) :
  (0 < r)%N -> (1 < c)%N -> (0 < n)%N -> maxIterations set = n%:Z ->
  (n < fuel)%N ->
  exists this' cout,
    [/\ solve fuel junk (ICP_new (Mx reference) (Mx target) set)
        = Done (n, (this', cout)),
        iterations this' = maxIterations set - n%:Z,
        iterations this' = 0
      & size cout = n /\ all is_report cout].
Proof.
move=> Hr Hc _ Hn Hf; rewrite /solve.
have Hw := solve_entry_well_shaped reference target set.
have [this' [cout [-> H0 Hsz Hall]]] :=
  @solve_loop_ok R libm eigen junk r c n Hr Hc fuel 0%N _ [::] Hf Hw Hn.
by exists this', cout; split=> //; rewrite H0 Hn subrr.
Qed.

Lemma solve_runs_maxIterations_rounds_witness :
  exists this' cout,
    [/\ @solve algR origin_math identity_svd 2 clean_run
          (ICP_new (Mx far_reference) (Mx origin_target) one_round)
        = Done (1%N, (this', cout)),
        iterations this' = maxIterations one_round - 1%:Z,
        iterations this' = 0
      & size cout = 1%N /\ all is_report cout].
Proof.
by apply: (@solve_runs_maxIterations_rounds algR origin_math identity_svd
             clean_run 1 2 far_reference origin_target one_round 1 2).
Defined.

(** Two coordinates are needed as well: with a single one a round ends in
    rotMatrixToDegrees, where [rot(1, 0)] lies outside the 1 x 1
    accumulated rotation. *)
Lemma solve_round_faults_on_one_column {R : rcfType} {libm : MathLib R}
    {eigen : EigenSVD R} (junk : storage) k (this : @ICP R)
    (cout : seq message) r :
  (0 < r)%N -> well_shaped r 1 this ->
  solve_round junk k (this, cout) = Fault Undefined.
Proof.
move=> Hr [Hrows Hcols [cur Hcur] [tgt Htgt] [rot Hrot]].
rewrite /solve_round; set this2 := set_lastRotation _ _.
rewrite (@match_E _ _ this2 r 1 cur tgt Hr Hrows Hcols Hcur Htgt
           erefl erefl erefl) /=.
rewrite Htgt -/(Mx (closest_mx cur tgt)) solveForOptimalRotation_Mx /=.
by rewrite Hrot.
Qed.

(** C9, where it fails: the working reference and the accumulated rotation
    and translation are not all that changes.  After the one round run on
    the two one-point sets, the counter has gone from 1 to 0, the copy of
    the previous rotation from the empty matrix to the 2 x 2 identity, and
    each point list from empty to one point. *)
Lemma solve_changes_working_state :
  exists this' cout,
    [/\ @solve algR origin_math identity_svd 2 clean_run
          (ICP_new (Mx far_reference) (Mx origin_target) one_round)
        = Done (1%N, (this', cout)),
        iterations (ICP_new (Mx far_reference) (Mx origin_target) one_round)
        = 1 /\ iterations this' = 0,
        lastRotation this' = Identity 2 2
      & size (closestPoints this') = 1%N].
Proof.
rewrite /solve while_S [iterations _]/= ltr01.
have Hw := solve_entry_well_shaped far_reference origin_target one_round.
case: (Hw) => Hrows Hcols [cur Hcur] [tgt Htgt] [rot Hrot].
have := @solve_roundE algR origin_math identity_svd clean_run 0 _ [::] 1 2
          cur tgt rot isT isT Hrows Hcols Hcur Htgt Hrot.
cbv zeta => -> /=.
eexists; eexists; split; first by [].
- by [].
- by [].
- by rewrite /best_matches ?size_mkseq.
Qed.

(** C9, as amended: when solve() returns, the stored reference matrix and
    the stored target matrix are the ones given to the constructor (and
    the two fields no statement assigns are as they were).  What a run
    changes is its working state: the working reference, the accumulated
    rotation and translation with their copies of the previous round, the
    point lists and the counter. *)
Theorem solve_keeps_reference_and_target {R : rcfType} {libm : MathLib R}
    {eigen : EigenSVD R} fuel (junk : storage) (reference target : @MatrixXd R)
    (set : ICPSettings) k (this' : @ICP R) (cout : seq message) :
  solve fuel junk (ICP_new reference target set) = Done (k, (this', cout)) ->
  [/\ mRef this' = reference, mTarget this' = target,
      solvedTransform this' = empty_matrix
    & solvedRotation this' = empty_matrix].
Proof.
rewrite /solve => Hw.
pose this := ICP_new reference target set.
pose P (st : @ICP R * seq (@message R)) := same_inputs this st.1.
have [] // : P (this', cout).
apply: (while_inv _ Hw); last by split.
move=> i [a ca] [b cb] /solve_round_frame [H1 H2 H3 H4] [/= P1 P2 P3 P4].
by split; rewrite /= ?H1 ?H2 ?H3 ?H4.
Qed.

Lemma solve_keeps_reference_and_target_witness :
  exists this' cout,
    @solve algR origin_math identity_svd 2 clean_run
      (ICP_new (Mx far_reference) (Mx origin_target) one_round)
    = Done (1%N, (this', cout))
    /\ [/\ mRef this' = Mx far_reference, mTarget this' = Mx origin_target,
           solvedTransform this' = empty_matrix
         & solvedRotation this' = empty_matrix].
Proof.
have [this' [cout [Hs _ _ _]]] :=
  @solve_loop_ok algR origin_math identity_svd clean_run 1 2 1 isT isT 2 0%N
    _ [::] isT (solve_entry_well_shaped far_reference origin_target one_round)
    (erefl _).
exists this', cout; split; first exact: Hs.
exact: (@solve_keeps_reference_and_target algR origin_math identity_svd
          _ _ _ _ _ _ _ _ Hs).
Defined.

(** * Further properties of the code *)

(** ** class Point *)

Section PointProperties.

Context {R : rcfType}.

Implicit Types (p q s this other coords points : seq R).

(** X4: prepare(size) resets nothing: it keeps the coordinates the point
    holds and appends [size] zeros. *)
Theorem prepare_appends_zeros (size : nat) coords :
  prepare size coords = coords ++ nseq size 0
  /\ Point_size (prepare size coords) = (Point_size coords + size)%N.
Proof. by rewrite prepareE /Point_size size_cat size_nseq. Qed.

(** X5: setPoints(points, size) replaces nothing either: it appends the
    first [size] entries of the array to the coordinates the point holds. *)
Theorem setPoints_appends points (n : nat) coords :
  (n <= size points)%N ->
  setPoints points n coords = Done (coords ++ take n points).
Proof.
move=> Hn; rewrite /setPoints; set loop := forM _ _ _.
have [s -> ->] : exists2 s, loop = Done s & s = coords ++ take (0 + n) points.
  apply: (@forM_iota_ind _ (fun k s => s = coords ++ take k points)).
    by rewrite take0 cats0.
  move=> i s; rewrite add0n /= => Hi ->.
  rewrite (fetch_nth 0) ?(leq_trans Hi) //=; eexists; first by [].
  by rewrite (take_nth 0) ?(leq_trans Hi) // rcons_cat.
by rewrite add0n.
Qed.

(** X6: a value written by setValue at a position inside the point is the
    value operator[] reads there; the size and the other coordinates are
    as before. *)
Theorem setValue_then_read (value : R) (pos : nat) coords :
  (pos < size coords)%N ->
  exists coords',
    [/\ setValue value pos coords = Done coords',
        Point_size coords' = Point_size coords,
        Point_at coords' pos = Done value
      & forall i, i != pos -> Point_at coords' i = Point_at coords i].
Proof.
move=> Hp; exists (set_nth 0 coords pos value).
have Hsz : size (set_nth 0 coords pos value) = size coords.
  by rewrite size_set_nth; apply/maxn_idPr.
split=> //; first by rewrite /setValue (store_set_nth 0).
  by rewrite /Point_at (fetch_nth 0) ?Hsz // nth_set_nth /= eqxx.
move=> i Hi; rewrite /Point_at.
have [Hlt|Hge] := ltnP i (size coords).
  by rewrite !(fetch_nth 0) ?Hsz // nth_set_nth /= (negbTE Hi).
by rewrite !fetch_oob ?Hsz.
Qed.

(** X7: [this - other] is defined when [this] has at least the coordinates
    of [other]; the difference has the size of [other], whatever further
    coordinates [this] holds.  When [this] is shorter, its coordinates are
    read out of range. *)
Theorem Point_sub_over_other this other :
  Point_sub this other
  = if (size other <= size this)%N
    then Done (mkseq (fun i => nth 0 this i - nth 0 other i) (size other))
    else Fault Undefined.
Proof.
case: leqP => Hs; first exact: Point_subE.
exact: Point_sub_short.
Qed.

(** X8: distanceTo is the Euclidean distance over the coordinates of the
    argument: when [this] is longer its further coordinates are ignored,
    when it is shorter the call is undefined. *)
Theorem distanceTo_over_other this other :
  distanceTo this other
  = if (size other <= size this)%N
    then Done (Num.sqrt (\sum_(0 <= i < size other)
                           (nth 0 this i - nth 0 other i) ^+ 2))
    else Fault Undefined.
Proof.
case: leqP => Hs; first exact: distanceToE.
by rewrite /distanceTo Point_sub_short.
Qed.

(** X9: on points of one size distanceTo is a metric: it is symmetric, it
    is zero exactly between equal points, and it obeys the triangle
    inequality. *)
Theorem distanceTo_metric p q s :
  size p = size q -> size q = size s ->
  exists dpq dqs dps,
    [/\ distanceTo p q = Done dpq /\ distanceTo q p = Done dpq,
        distanceTo q s = Done dqs /\ distanceTo p s = Done dps,
        0 <= dpq /\ (dpq == 0) = (p == q)
      & dps <= dpq + dqs].
Proof.
move=> Hpq Hqs; exists (dist p q), (dist q s), (dist p s).
rewrite !distanceToE ?Hpq ?Hqs // (dist_sym (esym Hpq)).
by split; rewrite ?dist_ge0 ?dist_eq0 ?dist_triangle.
Qed.

End PointProperties.

Lemma setPoints_appends_witness :
  @setPoints algR [:: 1; 2%:R] 2 (Point2 0 0) = Done [:: 0; 0; 1; 2%:R].
Proof. exact: (@setPoints_appends algR [:: 1; 2%:R] 2 (Point2 0 0) isT). Defined.

Lemma setValue_then_read_witness :
  exists coords',
    [/\ @setValue algR 1 1 (Point2 0 0) = Done coords',
        Point_size coords' = Point_size (Point2 (0 : algR) 0),
        Point_at coords' 1 = Done 1
      & forall i, i != 1%N -> Point_at coords' i = Point_at (Point2 0 0) i].
Proof. exact: (@setValue_then_read algR 1 1 (Point2 0 0) isT). Defined.

Lemma distanceTo_metric_witness :
  exists dpq dqs dps,
    [/\ @distanceTo algR [:: 0; 0] [:: 1; 0] = Done dpq
        /\ @distanceTo algR [:: 1; 0] [:: 0; 0] = Done dpq,
        @distanceTo algR [:: 1; 0] [:: 0; 1] = Done dqs
        /\ @distanceTo algR [:: 0; 0] [:: 0; 1] = Done dps,
        0 <= dpq /\ (dpq == 0) = ([:: 0; 0] == [:: 1; 0] :> seq algR)
      & dps <= dpq + dqs].
Proof.
exact: (@distanceTo_metric algR [:: 0; 0] [:: 1; 0] [:: 0; 1] erefl erefl).
Defined.

(** ** class OptimalPointMatcher *)

Section MatcherProperties.

Context {R : rcfType} {eigen : EigenSVD R}.

Implicit Types (M v data translation rotation : @MatrixXd R).


(** X11: solveForOptimalRotation sees its arguments only through the
    point sets centred at their centroids: shifting all reference points
    by one vector and all target points by another leaves the rotation as
    it is. *)
Theorem solveForOptimalRotation_ignores_shifts r c
    (ref target : 'M[R]_(r, c)) (t s : 'rV[R]_c) :
  solveForOptimalRotation (Mx (ref + \matrix_(i, j) t 0 j))
    (Mx (target + \matrix_(i, j) s 0 j))
  = solveForOptimalRotation (Mx ref) (Mx target).
Proof.
by rewrite !solveForOptimalRotation_Mx /kabsch_cov !centered_shift.
Qed.


(** X13: solveForOptimalRotation tests no shape.  When the reference and
    the target differ in their number of rows or of columns, some Eigen
    operation of the body is applied outside its domain: the centring loop
    reads a row past the end of the target, or one of the two products has
    operands that do not fit. *)
Theorem solveForOptimalRotation_shape_mismatch ref target :
  ~~ same_shape ref target ->
  solveForOptimalRotation ref target = Fault Undefined.
Proof. exact: solveForOptimalRotation_fault. Qed.

(** X14: RMSE compares element counts, not shapes.  Two matrices with the
    same number of elements in different shapes pass the test, and the
    difference [dataOne - dataTwo] is then taken of operands that do not
    fit. *)
Theorem RMSE_same_count_other_shape (a b : @MatrixXd R) :
  msize a = msize b -> ~~ same_shape a b -> RMSE a b = Fault Undefined.
Proof. by move=> Hs Hns; rewrite /RMSE Hs eqxx /= /sub (negbTE Hns). Qed.

(** X15: on matrices of one shape RMSE is a distance: it prints nothing,
    it is symmetric and never negative, it is zero exactly between equal
    matrices, and it obeys the triangle inequality. *)
Theorem RMSE_distance r c (a b d : 'M[R]_(r, c)) :
  exists eab ebd ead,
    [/\ RMSE (Mx a) (Mx b) = Done (eab, [::])
        /\ RMSE (Mx b) (Mx a) = Done (eab, [::]),
        RMSE (Mx b) (Mx d) = Done (ebd, [::])
        /\ RMSE (Mx a) (Mx d) = Done (ead, [::]),
        0 <= eab /\ (eab == 0) = (a == b)
      & ead <= eab + ebd].
Proof.
exists (sum_row_norms (a - b)), (sum_row_norms (b - d)),
  (sum_row_norms (a - d)).
have Hsym : sum_row_norms (b - a) = sum_row_norms (a - b).
  by rewrite -(opprB a b) sum_row_norms_opp.
rewrite !RMSE_Mx Hsym.
split=> //; first by rewrite sum_row_norms_ge0 sum_row_norms_eq0 subr_eq0.
have -> : a - d = (a - b) + (b - d) by rewrite addrA subrK.
exact: sum_row_norms_triangle.
Qed.

(** X16: the transform solve() starts from is neutral: with the zero
    column vector as translation and the identity as rotation,
    applyTransformation returns the data, for every data matrix but a
    1 x 1 one (which the translation matches in shape). *)
Theorem applyTransformation_neutral (junk : nat -> nat -> R) r c
    (data : 'M[R]_(r, c)) :
  (r != 1%N) || (c != 1%N) ->
  applyTransformation junk (Mx data) (Zero c 1) (Identity c c) = Done (Mx data).
Proof.
move=> Hs; rewrite Zero_Mx Identity_Mx applyTransformation_column_Mx //.
congr (Done (Mx _)); rewrite mulmx1.
by apply/matrixP => i j; rewrite !mxE addr0.
Qed.

(** X17: a translation that has the shape of the data, or that is neither
    a one-column nor a one-row matrix, is not looked at: [trans] is never
    assigned and the result is (data + storage) * rotation. *)
Theorem applyTransformation_ignores_other_shapes (junk : nat -> nat -> R)
    data translation rotation :
  same_shape translation data
  || (cols translation != 1%N) && (rows translation != 1%N) ->
  applyTransformation junk data translation rotation
  = (s <- add data (unset junk (rows data) (cols data)) ;; mul s rotation).
Proof.
case/orP => [Hs|/andP [/negbTE Hc /negbTE Hr]].
  exact: applyTransformation_same_shape.
by rewrite /applyTransformation Hc Hr; case: ifP.
Qed.

(** X18: a translation vector with fewer entries than the data has
    columns is read past its end. *)
Theorem applyTransformation_short_vector (junk : nat -> nat -> R)
    data translation rotation :
  ~~ same_shape translation data ->
  (cols translation == 1%N) && (rows translation < cols data)%N
  || [&& cols translation != 1%N, rows translation == 1%N
       & (cols translation < cols data)%N] ->
  applyTransformation junk data translation rotation = Fault Undefined.
Proof.
rewrite /same_shape negb_and /applyTransformation => -> /=.
pose P (_ : nat) M := shape_of M = shape_of data.
have HP0 : P 0%N (unset junk (rows data) (cols data)) by [].
have Hset i M t : (i < cols data)%N -> P i M ->
    exists2 M', set_col M i (scale t (Ones (rows data) 1)) = Done M' & P i.+1 M'.
  move=> Hi [HMr HMc]; rewrite /set_col HMc HMr Hi /= !eqxx /=.
  by eexists.
case/orP => [/andP [Hc Hlt]|/and3P [/negbTE -> Hr Hlt]].
  rewrite Hc; set loop := forM _ _ _.
  have -> // : loop = Fault Undefined.
  apply: (@forM_fault_at _ P _ _ (rows translation)) => //.
    move=> i M Hi HM; rewrite coeff_in ?(eqP Hc) //=.
    by apply: Hset => //; exact: ltn_trans Hi Hlt.
  by move=> M _; rewrite /coeff ltnn.
rewrite Hr; set loop := forM _ _ _.
have -> // : loop = Fault Undefined.
apply: (@forM_fault_at _ P _ _ (cols translation)) => //.
  move=> i M Hi HM; rewrite coeff_in ?(eqP Hr) //=.
  by apply: Hset => //; exact: ltn_trans Hi Hlt.
by move=> M _; rewrite /coeff ltnn andbF.
Qed.

End MatcherProperties.



Lemma solveForOptimalRotation_shape_mismatch_witness :
  @solveForOptimalRotation algR identity_svd (Zero 1 2) (Zero 2 2)
  = Fault Undefined.
Proof.
exact: (@solveForOptimalRotation_shape_mismatch algR identity_svd
          (Zero 1 2) (Zero 2 2) isT).
Defined.

Lemma RMSE_same_count_other_shape_witness :
  @RMSE algR (Zero 1 4) (Zero 2 2) = Fault Undefined.
Proof.
exact: (@RMSE_same_count_other_shape algR (Zero 1 4) (Zero 2 2) erefl isT).
Defined.

Lemma applyTransformation_neutral_witness :
  applyTransformation used_storage (Mx far_reference) (Zero 2 1) (Identity 2 2)
  = Done (Mx far_reference).
Proof.
exact: (@applyTransformation_neutral algR used_storage 1 2 far_reference isT).
Defined.

Lemma applyTransformation_ignores_other_shapes_witness :
  applyTransformation used_storage (Mx far_reference) (Zero 3 3) (Identity 2 2)
  = (s <- add (Mx far_reference) (unset used_storage 1 2) ;;
     mul s (Identity 2 2)).
Proof.
exact: (@applyTransformation_ignores_other_shapes algR used_storage
          (Mx far_reference) (Zero 3 3) (Identity 2 2) isT).
Defined.

Lemma applyTransformation_short_vector_witness :
  applyTransformation used_storage (Mx far_reference) (Zero 1 1) (Identity 2 2)
  = Fault Undefined.
Proof.
exact: (@applyTransformation_short_vector algR used_storage
          (Mx far_reference) (Zero 1 1) (Identity 2 2) isT isT).
Defined.

(** ** class ICP *)

Section ICPProperties.

Context {R : rcfType} {libm : MathLib R} {eigen : EigenSVD R}.

Implicit Types (this : @ICP R) (reference target : @MatrixXd R).

Local Arguments solve_round : simpl never.

(** X19: angleToRotMatrix writes the four entries of the leading 2 x 2
    block and nothing else: in a matrix of size 3 or more (points of three
    coordinates) every entry of a further row or column is what the
    storage held. *)
Theorem angleToRotMatrix_writes_leading_block (junk : nat -> nat -> R)
    (angle : R) (size : nat) :
  (1 < size)%N ->
  exists rot,
    [/\ angleToRotMatrix junk angle size = Done rot,
        rotation_by rot size angle
      & forall i j, (i < size)%N -> (j < size)%N -> (1 < i)%N || (1 < j)%N ->
          coeff rot i j = Done (junk i j)].
Proof.
move=> Hs; have H0 : (0 < size)%N := ltnW Hs.
exists (mk size size (rot_entries junk angle)); split.
- exact: angleToRotMatrixE.
- by split; rewrite ?coeff_mk.
- move=> i j Hi Hj Hij; rewrite coeff_mk // /rot_entries.
  by case: i j Hij {Hi Hj} => [|[|i]] [|[|j]].
Qed.

(** X20: reading the angle back.  For an angle on which asin inverts sin
    (after conversion to radians), rotMatrixToDegrees returns the angle
    angleToRotMatrix was given: the two conversions by PI / 180 and
    180 / PI cancel. *)
Theorem rotMatrixToDegrees_of_angleToRotMatrix (junk : nat -> nat -> R)
    (angle : R) (size : nat) :
  (1 < size)%N ->
  asin (sin (angle * PI / 180%:R)) = angle * PI / 180%:R ->
  (rot <- angleToRotMatrix junk angle size ;; rotMatrixToDegrees rot)
  = Done angle.
Proof.
move=> Hs Hinv; have H0 : (0 < size)%N := ltnW Hs.
rewrite angleToRotMatrixE //= /rotMatrixToDegrees coeff_mk //=.
rewrite /radians Hinv; congr Done.
have HPI : PI != 0 :> R by rewrite gt_eqF // PI_gt0.
have H180 : 180%:R != 0 :> R by rewrite pnatr_eq0.
by rewrite divfK // mulfK.
Qed.

(** X21: with maxIterations at or below zero solve() runs no round and
    prints nothing, whatever the point sets are: the rotation is the
    identity of size cols x cols, the translation the zero column vector,
    and the working reference the reference. *)
Theorem solve_without_rounds (fuel : nat) (junk : storage)
    reference target (set : ICPSettings) :
  maxIterations set <= 0 ->
  exists this',
    [/\ solve fuel.+1 junk (ICP_new reference target set)
        = Done (0%N, (this', [::])),
        getBestRotation this' = Identity (cols reference) (cols reference),
        getBestTranslation this' = Zero (cols reference) 1
      & curRef this' = reference /\ iterations this' = maxIterations set].
Proof.
move=> Hn; rewrite /solve while_S [iterations _]/= ltNge Hn /=.
by eexists; split.
Qed.

(** X22: solve() is one-shot.  When a run has returned, the counter is
    not positive; a further call runs no round, prints nothing, and puts
    the identity and the zero vector in place of the rotation and the
    translation the first run had found. *)
Theorem solve_again_resets (fuel fuel' : nat) (junk junk' : storage)
    this this' k (cout : seq message) :
  solve fuel junk this = Done (k, (this', cout)) ->
  exists this'',
    [/\ solve fuel'.+1 junk' this' = Done (0%N, (this'', [::])),
        getBestRotation this''
        = Identity (cols (mRef this)) (cols (mRef this)),
        getBestTranslation this'' = Zero (cols (mRef this)) 1
      & curRef this'' = curRef this' /\ iterations this' <= 0].
Proof.
rewrite /solve => Hw.
have Hexit := while_exit Hw; rewrite /= -leNgt in Hexit.
pose this0 :=
  set_transform (Zero (cols (mRef this)) 1)
    (set_rotation (Identity (cols (mRef this)) (cols (mRef this))) this).
have [Href _ _ _] : same_inputs this0 this'.
  pose P (st : @ICP R * seq (@message R)) := same_inputs this0 st.1.
  have : P (this', cout); last by [].
  apply: (while_inv _ Hw); last by split.
  move=> i [a ca] [b cb] /solve_round_frame [H1 H2 H3 H4] [/= P1 P2 P3 P4].
  by split; rewrite /= ?H1 ?H2 ?H3 ?H4.
rewrite while_S [iterations _]/= ltNge Hexit /=.
by eexists; split; rewrite //= ?Href.
Qed.

(** X23: on an empty reference set a run with maxIterations above zero
    ends in its first round, in match(): both loops are skipped and
    [closestPoints.at(0)] throws std::out_of_range, whatever the target
    and the number of columns. *)
Theorem solve_throws_on_empty_reference (fuel : nat) (junk : storage)
    reference target (set : ICPSettings) :
  rows reference = 0%N -> 0 < maxIterations set ->
  solve fuel.+1 junk (ICP_new reference target set) = Fault OutOfRange.
Proof. exact: solve_empty_fault. Qed.

(** X24: points of a single coordinate are not supported: a run with
    maxIterations above zero on non-empty sets of one column ends in its
    first round, where rotMatrixToDegrees reads [rot(1, 0)] outside the
    1 x 1 rotation. *)
Theorem solve_undefined_on_one_coordinate (fuel : nat) (junk : storage)
    r (reference target : 'M[R]_(r, 1)) (set : ICPSettings) :
  (0 < r)%N -> 0 < maxIterations set ->
  solve fuel.+1 junk (ICP_new (Mx reference) (Mx target) set)
  = Fault Undefined.
Proof.
move=> Hr Hn; rewrite /solve while_S [iterations _]/= Hn.
have Hw := solve_entry_well_shaped reference target set.
by rewrite (solve_round_faults_on_one_column junk 0 [::] Hr Hw).
Qed.


(** X26: after a run of at least one round on point sets of shape r x c
    (r > 0, c > 1), the rotation returned by getBestRotation is c x c, the
    translation returned by getBestTranslation is a column of c entries,
    the working reference is r x c, and the last line printed is the
    error of the state the run leaves: RMSE(target, working reference). *)
Theorem solve_reports_final_error (junk : storage) r c
    (reference target : 'M[R]_(r, c)) (set : ICPSettings) (n fuel : nat) :
  (0 < r)%N -> (1 < c)%N -> (0 < n)%N -> maxIterations set = n%:Z ->
  (n < fuel)%N ->
  exists this' cout e,
    [/\ solve fuel junk (ICP_new (Mx reference) (Mx target) set)
        = Done (n, (this', cout)),
        shape_of (getBestRotation this') = (c, c)
        /\ shape_of (getBestTranslation this') = (c, 1%N),
        shape_of (curRef this') = (r, c),
        last SizeMismatch cout = ErrorReport e
      & RMSE (mTarget this') (curRef this') = Done (e, [::])].
Proof.
case: n fuel => [//|n] [//|fuel] Hr Hc _ Hn Hf; rewrite /solve.
have Hw := solve_entry_well_shaped reference target set.
rewrite while_S [iterations _]/= Hn ltz_nat /=.
have [this1 [cout1 [-> Hw1 Hit1 Hrep1]]] :=
  solve_round_reported junk 0 [::] Hr Hc Hw.
rewrite [bind _ _]/=.
have Hn1 : iterations this1 = n%:Z.
  by rewrite Hit1 [iterations _]/= Hn intS addrC addKr.
have [this' [cout' [-> [cur [tgt [tr [rot [Hcur Htgt Htr Hrot [cout0 Hc0]]]]]]]]] :=
  @solve_loop_reported R libm eigen junk r c n Hr Hc fuel 1 this1 cout1 Hf Hw1 Hrep1 Hn1.
exists this', cout', (sum_row_norms (tgt - cur)); split=> //.
- by rewrite /getBestRotation /getBestTranslation Hrot Htr.
- by rewrite Hcur.
- by rewrite Hc0 last_rcons.
- by rewrite Htgt Hcur RMSE_Mx.
Qed.

(** X27: the translation is replaced in every round, not accumulated, and
    its previous value enters no computation: a round started from
    another translation ends in the same object but for the copy kept in
    lastTransform, and prints the same lines. *)
Theorem translation_not_accumulated (junk : storage) k this this'
    (cout cout' : seq message) (t : @MatrixXd R) :
  solve_round junk k (this, cout) = Done (this', cout') ->
  solve_round junk k (set_transform t this, cout)
  = Done (set_lastTransform t this', cout').
Proof.
rewrite /solve_round.
set S0 := set_lastRotation _ _; set S1 := set_lastRotation _ _.
have -> : S1 = with_transform t t (rotation this) (rotation this) S0 by [].
rewrite match_with_transform.
case E: (match_ _ S0) => [[this1 closest]|//|//] /=.
have [_ _ _ [_ Hlast] _] := match_frame E.
rewrite Hlast [lastRotation S0]/=.
case: (solveForOptimalRotation _ _) => //= newRot.
case: (solveForOptimalTranslation _ _ _) => //= newTrans.
case: (rotMatrixToDegrees (rotation this)) => //= lastAngle.
case: (rotMatrixToDegrees _) => //= angle.
case: (angleToRotMatrix _ _ _) => //= rot.
case: (applyTransformation _ _ _ _) => //= newRef.
case: (RMSE _ _) => //= -[error printed] [<- <-]; congr (Done (_, _)).
by case: this1 Hlast {E} => /= ? ? ? ? ? ? ? ? lr ? ? ? ? ->.
Qed.

(** X28: the rotation accumulated so far enters a round through its
    number of rows and its entry (1, 0) only: a round started from another
    matrix with the same two ends in the same object but for the copy kept
    in lastRotation, and prints the same lines. *)
Theorem rotation_enters_through_one_entry (junk : storage) k this this'
    (cout cout' : seq message) (rot2 : @MatrixXd R) :
  rows rot2 = rows (rotation this) ->
  coeff rot2 1 0 = coeff (rotation this) 1 0 ->
  solve_round junk k (this, cout) = Done (this', cout') ->
  solve_round junk k (set_rotation rot2 this, cout)
  = Done (set_lastRotation rot2 this', cout').
Proof.
move=> Hrows H10; rewrite /solve_round.
set S0 := set_lastRotation _ _; set S1 := set_lastRotation _ _.
have -> : S1 = with_transform (transform this) (transform this) rot2 rot2 S0.
  by [].
rewrite match_with_transform.
case E: (match_ _ S0) => [[this1 closest]|//|//] /=.
have [_ _ [_ Hlt] [_ Hlast] _] := match_frame E.
rewrite Hlast [lastRotation S0]/=.
case: (solveForOptimalRotation _ _) => //= newRot.
case: (solveForOptimalTranslation _ _ _) => //= newTrans.
have -> : rotMatrixToDegrees rot2 = rotMatrixToDegrees (rotation this).
  by rewrite /rotMatrixToDegrees H10.
rewrite Hrows.
case: (rotMatrixToDegrees (rotation this)) => //= lastAngle.
case: (rotMatrixToDegrees _) => //= angle.
case: (angleToRotMatrix _ _ _) => //= rot.
case: (applyTransformation _ _ _ _) => //= newRef.
case: (RMSE _ _) => //= -[error printed] [<- <-]; congr (Done (_, _)).
by case: this1 Hlt {E Hlast} => /= ? ? ? ? ? ? lt ? ? ? ? ? ? ->.
Qed.

(** X29: solve() tests no shape.  On a non-empty reference of at least
    one column and a target of another shape, a run with maxIterations
    above zero ends in its first round outside the domain of an
    operation: match() reads an entry the target does not have, or, when
    the target has every row and column of the reference and more,
    solveForOptimalRotation is applied to operands that do not fit. *)
Theorem solve_undefined_on_shape_mismatch (fuel : nat) (junk : storage)
    reference target (set : ICPSettings) :
  (0 < rows reference)%N -> (0 < cols reference)%N ->
  ~~ same_shape reference target -> 0 < maxIterations set ->
  solve fuel.+1 junk (ICP_new reference target set) = Fault Undefined.
Proof. exact: solve_mismatch_fault. Qed.

End ICPProperties.

Lemma angleToRotMatrix_writes_leading_block_witness :
  exists rot,
    [/\ @angleToRotMatrix algR origin_math used_storage 0 3 = Done rot,
        @rotation_by algR origin_math rot 3 0
      & forall i j, (i < 3)%N -> (j < 3)%N -> (1 < i)%N || (1 < j)%N ->
          coeff rot i j = Done (used_storage i j)].
Proof.
exact: (@angleToRotMatrix_writes_leading_block algR origin_math
          used_storage 0 3 isT).
Defined.

Lemma rotMatrixToDegrees_of_angleToRotMatrix_witness :
  (rot <- @angleToRotMatrix algR linear_math used_storage 90%:R 2 ;;
   @rotMatrixToDegrees algR linear_math rot)
  = Done 90%:R.
Proof.
exact: (@rotMatrixToDegrees_of_angleToRotMatrix algR linear_math
          used_storage 90%:R 2 isT erefl).
Defined.

Lemma solve_without_rounds_witness :
  exists this',
    [/\ @solve algR origin_math identity_svd 1 clean_run (empty_sets no_round)
        = Done (0%N, (this', [::])),
        getBestRotation this' = Identity 2 2,
        getBestTranslation this' = Zero 2 1
      & curRef this' = Zero 0 2 /\ iterations this' = 0].
Proof.
exact: (@solve_without_rounds algR origin_math identity_svd 0 clean_run
          (Zero 0 2) (Zero 0 2) no_round (lexx 0)).
Defined.

Lemma solve_again_resets_witness :
  exists this' cout this'',
    @solve algR origin_math identity_svd 2 clean_run
      (ICP_new (Mx far_reference) (Mx origin_target) one_round)
    = Done (1%N, (this', cout))
    /\ [/\ @solve algR origin_math identity_svd 1 clean_run this'
           = Done (0%N, (this'', [::])),
           getBestRotation this'' = Identity 2 2,
           getBestTranslation this'' = Zero 2 1
         & curRef this'' = curRef this' /\ iterations this' <= 0].
Proof.
have [this' [cout [Hs _ _ _]]] :=
  @solve_loop_ok algR origin_math identity_svd clean_run 1 2 1 isT isT 2 0%N
    _ [::] isT (solve_entry_well_shaped far_reference origin_target one_round)
    (erefl _).
have [this'' H] :=
  @solve_again_resets algR origin_math identity_svd 2 0 clean_run clean_run
    _ _ _ _ Hs.
by exists this', cout, this''.
Defined.

Lemma solve_throws_on_empty_reference_witness :
  @solve algR origin_math identity_svd 1 clean_run
    (ICP_new (Zero 0 2) (Mx origin_target) two_rounds)
  = Fault OutOfRange.
Proof.
exact: (@solve_throws_on_empty_reference algR origin_math identity_svd 0
          clean_run (Zero 0 2) (Mx origin_target) two_rounds erefl isT).
Defined.

Lemma solve_undefined_on_one_coordinate_witness :
  @solve algR origin_math identity_svd 1 clean_run
    (ICP_new (Mx (0 : 'M[algR]_(1, 1))) (Mx (0 : 'M[algR]_(1, 1))) one_round)
  = Fault Undefined.
Proof.
exact: (@solve_undefined_on_one_coordinate algR origin_math identity_svd 0
          clean_run 1 0 0 one_round isT isT).
Defined.


Lemma solve_reports_final_error_witness :
  exists this' cout e,
    [/\ @solve algR origin_math identity_svd 2 clean_run
          (ICP_new (Mx far_reference) (Mx origin_target) one_round)
        = Done (1%N, (this', cout)),
        shape_of (getBestRotation this') = (2%N, 2%N)
        /\ shape_of (getBestTranslation this') = (2%N, 1%N),
        shape_of (curRef this') = (1%N, 2%N),
        last SizeMismatch cout = ErrorReport e
      & RMSE (mTarget this') (curRef this') = Done (e, [::])].
Proof.
exact: (@solve_reports_final_error algR origin_math identity_svd clean_run
          1 2 far_reference origin_target one_round 1 2 isT isT isT erefl isT).
Defined.

Lemma translation_not_accumulated_witness :
  exists this' cout',
    @solve_round algR origin_math identity_svd clean_run 0
      (first_round_entry, [::]) = Done (this', cout')
    /\ @solve_round algR origin_math identity_svd clean_run 0
         (set_transform (Mx unit_shift_column) first_round_entry, [::])
       = Done (set_lastTransform (Mx unit_shift_column) this', cout').
Proof.
have [this' [e [Hs _ _]]] :=
  @solve_round_ok algR origin_math identity_svd clean_run 0
    first_round_entry [::] 1 2 isT isT
    (solve_entry_well_shaped far_reference origin_target one_round).
exists this', ([::] ++ [:: ErrorReport e]); split; first exact: Hs.
exact: (@translation_not_accumulated algR origin_math identity_svd _ _ _ _ _ _
          (Mx unit_shift_column) Hs).
Defined.

Lemma rotation_enters_through_one_entry_witness :
  exists this' cout',
    @solve_round algR origin_math identity_svd clean_run 0
      (first_round_entry, [::]) = Done (this', cout')
    /\ @solve_round algR origin_math identity_svd clean_run 0
         (set_rotation (Zero 2 2) first_round_entry, [::])
       = Done (set_lastRotation (Zero 2 2) this', cout').
Proof.
have [this' [e [Hs _ _]]] :=
  @solve_round_ok algR origin_math identity_svd clean_run 0
    first_round_entry [::] 1 2 isT isT
    (solve_entry_well_shaped far_reference origin_target one_round).
exists this', ([::] ++ [:: ErrorReport e]); split; first exact: Hs.
have H10 : coeff (Zero 2 2) 1 0 = coeff (rotation first_round_entry) 1 0.
  by rewrite /coeff /= !peek_mk.
exact: (@rotation_enters_through_one_entry algR origin_math identity_svd
          clean_run 0 first_round_entry this' [::] _ (Zero 2 2) erefl H10 Hs).
Defined.

Lemma solve_undefined_on_shape_mismatch_witness :
  @solve algR origin_math identity_svd 1 clean_run
    (ICP_new (Zero 1 2) (Zero 2 2) one_round)
  = Fault Undefined.
Proof.
exact: (@solve_undefined_on_shape_mismatch algR origin_math identity_svd 0
          clean_run (Zero 1 2) (Zero 2 2) one_round isT isT isT isT).
Defined.
